(** * xkbgroup.core: the symbol-string parser and the display session

    A shallow embedding of [src/xkbgroup/core.py].

    - Python [str] values are lists of Unicode code points ([N]); the
      classification of the code points above ASCII, which Python takes
      from its Unicode database, is a parameter ([UnicodeDB]).
    - [SYMBOL_REGEX] is a value of a small regular-expression syntax, run
      by a backtracking matcher with named groups (greedy, leftmost
      alternative first, as Python's [re] does).
    - A raised exception is the left injection of a sum; Python's [int]
      is [Z].
    - The instance [self] is its attribute dictionary, a [gmap] from
      attribute names to C pointers; Xlib is a log of the calls made, a
      memory of keyboard descriptions, and a server whose replies are a
      function of the log. *)

From Stdlib Require Import ZArith NArith Lia List Ascii String.
From stdpp Require Import base gmap strings list fin_maps.
Import ListNotations.

Local Open Scope Z_scope.

(** ** Python values *)

(** A Python string: the sequence of its code points. *)
Abbreviation str := (list N).

(** The code points of an ASCII literal. *)
Definition u (s : string) : str :=
  map N_of_ascii (list_ascii_of_string s).

(** The exceptions the module can raise. [X11Error] is the module's own
    class; the others are Python built-ins. *)
Inductive exn : Type :=
| X11Error (msg : str)
| AssertionError
| AttributeError (name : string)
| KeyError (key : Z)
| ValueError (msg : str)
| IndexError.

(** What Python's Unicode database says about the code points from 128
    on: [Py_UNICODE_ISALNUM] and [Py_UNICODE_TODECIMAL] (the decimal value
    of a character of category Nd, none for any other). *)
Record UnicodeDB : Type := {
  uni_isalnum : N -> bool;
  uni_todecimal : N -> option N
}.

(** The database of a text that is ASCII only. *)
Definition ascii_db : UnicodeDB :=
  {| uni_isalnum := fun _ => false; uni_todecimal := fun _ => None |}.

(** ** Regular expressions *)

(** The fragment of [re] syntax that [SYMBOL_REGEX] is written in. *)
Inductive regex : Type :=
| Chr (c : N)                         (* an escaped literal: \( \) : *)
| Plus (cls : N -> bool)              (* \w+ and \d+, greedy *)
| Cat (r1 r2 : regex)
| Opt (r : regex)                     (* (?: ... )? , greedy *)
| Named (name : string) (r : regex).  (* (?P<name> ... ) *)

(** One or more characters of a class, the longest run first; [k] is
    what follows in the pattern, run on the rest of the input. *)
Fixpoint plus_greedy {A} (cls : N -> bool) (s : str) (k : str -> option A)
  : option A :=
  match s with
  | [] => None
  | c :: s' =>
      if cls c then
        match plus_greedy cls s' k with
        | Some m => Some m
        | None => k s'
        end
      else None
  end.

(** The text consumed between the input [s] and its suffix [s']. *)
Definition consumed (s s' : str) : str :=
  firstn (length s - length s')%nat s.

(** The backtracking matcher: [m] holds the groups set so far, [k] is the
    rest of the pattern. A branch that fails leaves no trace in [m]. *)
Fixpoint run (r : regex) (s : str) (m : gmap string str)
    (k : str -> gmap string str -> option (gmap string str))
  : option (gmap string str) :=
  match r with
  | Chr c =>
      match s with
      | x :: s' => if N.eqb x c then k s' m else None
      | [] => None
      end
  | Plus cls => plus_greedy cls s (fun s' => k s' m)
  | Cat r1 r2 => run r1 s m (fun s' m' => run r2 s' m' k)
  | Opt r1 =>
      match run r1 s m k with
      | Some m' => Some m'
      | None => k s m
      end
  | Named name r1 =>
      run r1 s m (fun s' m' => k s' (<[name := consumed s s']> m'))
  end.

(** [pattern.fullmatch(string)]: the match has to end where the string
    ends; the groups of the match, or [None]. (This is the method of
    Python 3.4 and later; for older ones the module wraps the pattern.) *)
Definition at_end (s' : str) (m : gmap string str)
  : option (gmap string str) :=
  match s' with [] => Some m | _ :: _ => None end.

Definition fullmatch (r : regex) (s : str) : option (gmap string str) :=
  run r s ∅ at_end.

(** [match.group(name)]: [None] when the group took no part. *)
Definition group (m : gmap string str) (name : string) : option str :=
  m !! name.

(** ** The symbol parser *)

(** [SymbolData = namedtuple("SymbolData", ["symbol", "variant", "index"])] *)
Record SymbolData : Type := mkSymbolData {
  symbol : str;
  variant : option str;
  index : Z
}.

#[global] Instance SymbolData_eq_dec : EqDecision SymbolData.
Proof. solve_decision. Defined.

Section Symbols.
Context (U : UnicodeDB).

(** [\w] on a [str] pattern. *)
Definition is_word (c : N) : bool :=
  if (c <? 128)%N then
    ((48 <=? c) && (c <=? 57) || (65 <=? c) && (c <=? 90)
     || (97 <=? c) && (c <=? 122) || (c =? 95))%N
  else uni_isalnum U c.

(** [\d] on a [str] pattern. *)
Definition is_digit (c : N) : bool :=
  if (c <? 128)%N then ((48 <=? c) && (c <=? 57))%N
  else bool_decide (is_Some (uni_todecimal U c)).

Definition digit_value (c : N) : Z :=
  if (c <? 128)%N then Z.of_N c - 48
  else Z.of_N (default 0%N (uni_todecimal U c)).

(** [int(s)] on a string of decimal digits: its value, with no bound on
    the length of the string. *)
Definition int (ds : str) : Z :=
  fold_left (fun acc c => 10 * acc + digit_value c) ds 0.

(** [SYMBOL_REGEX], compiled with [re.VERBOSE]. *)
Definition SYMBOL_REGEX : regex :=
  Cat (Named "symbol" (Plus is_word))
    (Cat (Opt (Cat (Chr 40) (Cat (Named "variant" (Plus is_word)) (Chr 41))))
         (Opt (Cat (Chr 58) (Named "index" (Plus is_digit))))).

(** The message of the error for a token off the grammar. *)
Definition malformed (symstr : str) : str :=
  u "Malformed symbol string: " ++ [34%N] ++ symstr ++ [34%N].

(** The inner function [get_symboldata] of [_parse_symbols]. The group
    [symbol] is not optional in the pattern: it is set in every match
    ([fullmatch_symbol_set]). *)
Definition get_symboldata (default_index : Z) (symstr : str)
  : exn + SymbolData :=
  match fullmatch SYMBOL_REGEX symstr with
  | Some m =>
      let index := group m "index" in
      inr (mkSymbolData
             (default [] (group m "symbol"))
             (group m "variant")
             (match index with
              | Some ds => int ds - 1
              | None => default_index
              end))
  | None => inl (X11Error (malformed symstr))
  end.

(** [s.split(sep)] for a separator of one character. *)
Fixpoint split (sep : N) (s : str) : list str :=
  match s with
  | [] => [[]]
  | c :: s' =>
      if N.eqb c sep then [] :: split sep s'
      else match split sep s' with
           | t :: ts => (c :: t) :: ts
           | [] => [[c]]
           end
  end.

(** The [for] loop of [_parse_symbols]; [symboldata_list] is the list
    appended to. *)
Fixpoint parse_loop (non_symbols : list str) (default_index : Z)
    (tokens : list str) (symboldata_list : list SymbolData)
  : exn + list SymbolData :=
  match tokens with
  | [] => inr symboldata_list
  | symstr :: rest =>
      match get_symboldata default_index symstr with
      | inl e => inl e
      | inr symboldata =>
          if bool_decide (symbol symboldata ∉ non_symbols)
          then parse_loop non_symbols default_index rest
                 (symboldata_list ++ [symboldata])
          else parse_loop non_symbols default_index rest symboldata_list
      end
  end.

(** [_parse_symbols(symbols_str, non_symbols, default_index=0)]. The
    [assert] is taken as enabled (Python run without [-O]). *)
Definition _parse_symbols (symbols_str : str) (non_symbols : list str)
    (default_index : Z) : exn + list SymbolData :=
  match parse_loop non_symbols default_index (split 43 symbols_str) [] with
  | inl e => inl e
  | inr symboldata_list =>
      let indices := map index symboldata_list in
      if bool_decide
           (length indices = size (list_to_set (C := gset Z) indices))
      then inr symboldata_list
      else inl AssertionError
  end.

(** The parser as the specification calls it: the default index left
    at its default. *)
Definition parse (raw : str) (ignored : list str) : exn + list SymbolData :=
  _parse_symbols raw ignored 0.

End Symbols.

(** ** Xlib, as the session sees it *)

(** A C pointer ([Display*], [XkbDescPtr]) and an X atom. *)
Abbreviation ptr := N (only parsing).
Abbreviation Atom := N (only parsing).

Definition NULL : ptr := 0%N.

(** The constants that [from .xkb import *] brings in. The binding module
    [xkb] lies outside this development, so they are parameters of the
    session. *)
Record xkb_h : Type := {
  Success : Z;
  BadMatch : Z;
  BadAlloc : Z;
  BadLength : Z;
  BadImplementation : Z;
  XkbOD_BadLibraryVersion : Z;
  XkbOD_ConnectionRefused : Z;
  XkbOD_BadServerVersion : Z;
  XkbOD_NonXkbServer : Z;
  XkbMajorVersion : Z;
  XkbMinorVersion : Z;
  XkbUseCoreKbd : Z;
  XkbAllControlsMask : Z;
  XkbSymbolsNameMask : Z;
  XkbGroupNamesMask : Z;
  XkbNumKbdGroups : nat;
  None_ : Atom
}.

(** The values the X11 headers give them. *)
Definition X11_headers : xkb_h :=
  {| Success := 0; BadMatch := 8; BadAlloc := 11; BadLength := 16;
     BadImplementation := 17;
     XkbOD_BadLibraryVersion := 1; XkbOD_ConnectionRefused := 2;
     XkbOD_BadServerVersion := 4; XkbOD_NonXkbServer := 3;
     XkbMajorVersion := 1; XkbMinorVersion := 0;
     XkbUseCoreKbd := 256; XkbAllControlsMask := 4160757759;
     XkbSymbolsNameMask := 4; XkbGroupNamesMask := 4096;
     XkbNumKbdGroups := 4; None_ := 0%N |}.

(** Modelled from the spec: the structure types of the binding module
    [xkb], as far as the session reads them. The session reads
    [.ctrls.contents] and [.names.contents], so both fields are ctypes
    pointers: [None] here is the NULL pointer, which is what a
    description has before the block is fetched and after it is freed.
    The array [groups] is declared with [XkbNumKbdGroups] slots. *)
Record XkbControlsRec : Type := { num_groups : Z }.
Record XkbNamesRec : Type := { symbols : Atom; groups : list Atom }.
Record XkbDescRec : Type := {
  ctrls : option XkbControlsRec;
  names : option XkbNamesRec
}.

(** The Xlib calls the module makes, with their arguments. *)
Inductive call : Type :=
| C_XkbIgnoreExtension (ignore : bool)
| C_XkbOpenDisplay (major minor : Z)
| C_XkbGetMap (dpy : ptr) (which device : Z)
| C_XkbGetControls (dpy : ptr) (which : Z) (xkb : ptr)
| C_XkbGetNames (dpy : ptr) (which : Z) (xkb : ptr)
| C_XkbFreeNames (xkb : ptr) (which : Z) (free_map : bool)
| C_XkbFreeControls (xkb : ptr) (which : Z) (free_all : bool)
| C_XkbFreeClientMap (xkb : ptr) (what : Z) (free_all : bool)
| C_XCloseDisplay (dpy : ptr)
| C_XkbGetState (dpy : ptr) (device : Z)
| C_XkbLockGroup (dpy : ptr) (device : Z) (group : Z)
| C_XFlush (dpy : ptr).

#[global] Instance call_eq_dec : EqDecision call.
Proof. solve_decision. Defined.

(** The X server and library: each reply is a function of the calls made
    so far (the call being answered is the last of them). *)
Record XServer : Type := {
  open_display_reply : list call -> ptr * Z;   (* the display and the reason *)
  get_map_reply : list call -> ptr;
  get_controls_reply : list call -> Z * XkbControlsRec;
  get_names_reply : list call -> Z * XkbNamesRec;
  get_state_reply : list call -> Z;            (* xkb_state.group *)
  lock_group_reply : list call -> bool
}.

(** The instance's attribute dictionary, the calls made (oldest first)
    and the keyboard descriptions in C memory. *)
Record state : Type := mkState {
  self : gmap string ptr;
  log : list call;
  memory : gmap ptr XkbDescRec
}.

(** A method: it returns or raises, and in both cases leaves a state. *)
Definition M (A : Type) : Type := state -> (exn + A) * state.

#[global] Instance M_ret : MRet M := fun A x st => (inr x, st).

#[global] Instance M_bind : MBind M := fun A B f c st =>
  match c st with
  | (inr x, st') => f x st'
  | (inl e, st') => (inl e, st')
  end.

Definition raise {A} (e : exn) : M A := fun st => (inl e, st).

(** A computation that touches no state. *)
Definition result {A} (r : exn + A) : M A := fun st => (r, st).

(** A XKeyboard that [__init__] has not touched yet, before any call. *)
Definition fresh : state := mkState ∅ [] ∅.

Section Session.
Context (K : xkb_h) (srv : XServer).

(** *** Attributes of [self] *)

(** The class has methods and properties but no data attribute, so
    [hasattr] of a name that is none of them looks in the instance
    only. *)
Definition hasattr (name : string) : M bool :=
  fun st => (inr (bool_decide (is_Some (self st !! name))), st).

Definition getattr (name : string) : M ptr :=
  fun st => match self st !! name with
            | Some p => (inr p, st)
            | None => (inl (AttributeError name), st)
            end.

Definition setattr (name : string) (p : ptr) : M unit :=
  fun st => (inr (), mkState (<[name := p]> (self st)) (log st) (memory st)).

Definition delattr (name : string) : M unit :=
  fun st => match self st !! name with
            | Some _ =>
                (inr (), mkState (delete name (self st)) (log st) (memory st))
            | None => (inl (AttributeError name), st)
            end.

(** The truth value of a ctypes pointer: it is not NULL. *)
Definition truthy (p : ptr) : bool := negb (N.eqb p NULL).

(** [p.contents]; ctypes raises [ValueError] on a NULL pointer. *)
Definition contents (p : ptr) : M XkbDescRec :=
  fun st => match memory st !! p with
            | Some d => (inr d, st)
            | None => (inl (ValueError (u "NULL pointer access")), st)
            end.

(** *** The Xlib functions *)

Definition emit (c : call) : M (list call) :=
  fun st => let l := log st ++ [c] in
            (inr l, mkState (self st) l (memory st)).

Definition alter_memory (f : XkbDescRec -> XkbDescRec) (p : ptr) : M unit :=
  fun st => (inr (), mkState (self st) (log st) (alter f p (memory st))).

Definition allocate (p : ptr) (d : XkbDescRec) : M unit :=
  fun st => (inr (), mkState (self st) (log st) (<[p := d]> (memory st))).

Definition X_XkbIgnoreExtension (ignore : bool) : M unit :=
  emit (C_XkbIgnoreExtension ignore);; mret ().

Definition X_XkbOpenDisplay (major minor : Z) : M (ptr * Z) :=
  l ← emit (C_XkbOpenDisplay major minor);
  mret (open_display_reply srv l).

(** A description just fetched has neither controls nor names. *)
Definition X_XkbGetMap (dpy : ptr) (which device : Z) : M ptr :=
  l ← emit (C_XkbGetMap dpy which device);
  let p := get_map_reply srv l in
  (if truthy p then allocate p (Build_XkbDescRec None None)
   else mret ());;
  mret p.

Definition X_XkbGetControls (dpy : ptr) (which : Z) (xkb : ptr) : M Z :=
  l ← emit (C_XkbGetControls dpy which xkb);
  let '(status, c) := get_controls_reply srv l in
  (if bool_decide (status = Success K)
   then alter_memory (fun d => Build_XkbDescRec (Some c) (names d)) xkb
   else mret ());;
  mret status.

Definition X_XkbGetNames (dpy : ptr) (which : Z) (xkb : ptr) : M Z :=
  l ← emit (C_XkbGetNames dpy which xkb);
  let '(status, n) := get_names_reply srv l in
  (if bool_decide (status = Success K)
   then alter_memory (fun d => Build_XkbDescRec (ctrls d) (Some n)) xkb
   else mret ());;
  mret status.

Definition X_XkbFreeNames (xkb : ptr) (which : Z) (free_map : bool) : M unit :=
  emit (C_XkbFreeNames xkb which free_map);;
  alter_memory (fun d => Build_XkbDescRec (ctrls d) None) xkb.

Definition X_XkbFreeControls (xkb : ptr) (which : Z) (free_all : bool)
  : M unit :=
  emit (C_XkbFreeControls xkb which free_all);;
  alter_memory (fun d => Build_XkbDescRec None (names d)) xkb.

Definition X_XkbFreeClientMap (xkb : ptr) (what : Z) (free_all : bool)
  : M unit :=
  emit (C_XkbFreeClientMap xkb what free_all);; mret ().

Definition X_XCloseDisplay (dpy : ptr) : M unit :=
  emit (C_XCloseDisplay dpy);; mret ().

Definition X_XkbGetState (dpy : ptr) (device : Z) : M Z :=
  l ← emit (C_XkbGetState dpy device);
  mret (get_state_reply srv l).

Definition X_XkbLockGroup (dpy : ptr) (device : Z) (group : Z) : M bool :=
  l ← emit (C_XkbLockGroup dpy device group);
  mret (lock_group_reply srv l).

Definition X_XFlush (dpy : ptr) : M unit :=
  emit (C_XFlush dpy);; mret ().

(** *** Error tables *)

Definition OPEN_DISPLAY_ERRORS : gmap Z str :=
  <[XkbOD_NonXkbServer K := u "XKB not present in the X server"]>
  (<[XkbOD_BadServerVersion K :=
       u "Library and server have incompatible XKB versions"]>
  (<[XkbOD_ConnectionRefused K := u "Display could not be opened"]>
  (<[XkbOD_BadLibraryVersion K :=
       u "Compile-time and runtime XKB libraries not compatible"]> ∅))).

Definition bad_match_text : str :=
  u "A compatible version of Xkb was not available in the server or an argument has correct type and range, but is otherwise invalid".

Definition GET_CONTROLS_ERRORS : gmap Z str :=
  <[BadMatch K := bad_match_text]>
  (<[BadImplementation K := u "Invalid reply from server"]>
  (<[BadAlloc K := u "Unable to allocate storage"]> ∅)).

Definition GET_NAMES_ERRORS : gmap Z str :=
  <[BadMatch K := bad_match_text]>
  (<[BadLength K :=
       u "The length of a request is shorter or longer than that required to minimally contain the arguments"]>
  (<[BadImplementation K := u "Invalid reply from server"]>
  (<[BadAlloc K := u "Unable to allocate storage"]> ∅))).

(** [table[status]] *)
Definition subscript (table : gmap Z str) (status : Z) : M str :=
  match table !! status with
  | Some msg => mret msg
  | None => raise (KeyError status)
  end.

(** *** [XKeyboard] *)

(** [hasattr(self, name) and self.<attr>], as a truth value. *)
Definition has_and_truthy (name attr : string) : M bool :=
  has ← hasattr name;
  if has : bool then p ← getattr attr; mret (truthy p) else mret false.

Definition close_display : M unit :=
  held ← has_and_truthy "_keyboard_description" "_keyboard_description";
  (if held : bool then
     let names_mask := Z.lor (XkbSymbolsNameMask K) (XkbGroupNamesMask K) in
     kd ← getattr "_keyboard_description";
     X_XkbFreeNames kd names_mask true;;
     kd ← getattr "_keyboard_description";
     X_XkbFreeControls kd (XkbAllControlsMask K) true;;
     kd ← getattr "_keyboard_description";
     X_XkbFreeClientMap kd 0 true;;
     delattr "_keyboard_description"
   else mret ());;
  held ← has_and_truthy "display" "_display";
  (if held : bool then
     dpy ← getattr "_display";
     X_XCloseDisplay dpy;;
     delattr "_display"
   else mret ()).

Definition open_display : M unit :=
  close_display;;
  X_XkbIgnoreExtension false;;
  '(dpy, reason) ← X_XkbOpenDisplay (XkbMajorVersion K) (XkbMinorVersion K);
  setattr "_display" dpy;;
  (match OPEN_DISPLAY_ERRORS !! reason with
   | Some msg => raise (X11Error (msg ++ u "."))
   | None => mret ()
   end);;
  dpy ← getattr "_display";
  kd ← X_XkbGetMap dpy 0 (XkbUseCoreKbd K);
  setattr "_keyboard_description" kd;;
  kd ← getattr "_keyboard_description";
  (if truthy kd then mret ()
   else close_display;;
        raise (X11Error (u "Failed to get keyboard description.")));;
  dpy ← getattr "_display";
  kd ← getattr "_keyboard_description";
  status ← X_XkbGetControls dpy (XkbAllControlsMask K) kd;
  (if bool_decide (status ≠ Success K) then
     close_display;;
     msg ← subscript GET_CONTROLS_ERRORS status;
     raise (X11Error (msg ++ u "."))
   else mret ());;
  let names_mask := Z.lor (XkbSymbolsNameMask K) (XkbGroupNamesMask K) in
  dpy ← getattr "_display";
  kd ← getattr "_keyboard_description";
  status ← X_XkbGetNames dpy names_mask kd;
  (if bool_decide (status ≠ Success K) then
     close_display;;
     msg ← subscript GET_NAMES_ERRORS status;
     raise (X11Error (msg ++ u "."))
   else mret ()).

(** [XKeyboard(auto_open)], on the fresh instance. *)
Definition __init__ (auto_open : bool) : M unit :=
  if auto_open then open_display else mret ().

Definition __del__ : M unit := close_display.

(** [__enter__] returns [self]: the instance is the state. *)
Definition __enter__ : M unit := open_display.

Definition __exit__ : M unit := close_display.

(** The [while] loop of [groups_count]. [remaining] is
    [XkbNumKbdGroups - groups_count], the distance to the bound the
    loop tests first; a ctypes array raises [IndexError] off its end. *)
Fixpoint count_groups (remaining : nat) (groups_source : list Atom)
    (groups_count : nat) : exn + Z :=
  match remaining with
  | O => inr (Z.of_nat groups_count)
  | S remaining' =>
      match groups_source !! groups_count with
      | None => inl IndexError
      | Some atom =>
          if bool_decide (atom ≠ None_ K)
          then count_groups remaining' groups_source (S groups_count)
          else inr (Z.of_nat groups_count)
      end
  end.

(** [self._keyboard_description.contents.names.contents] *)
Definition names_contents : M XkbNamesRec :=
  kd ← getattr "_keyboard_description";
  desc ← contents kd;
  match names desc with
  | Some n => mret n
  | None => raise (ValueError (u "NULL pointer access"))
  end.

Definition _groups_source : M (list Atom) :=
  n ← names_contents; mret (groups n).

(** [p is not None] for what a ctypes pointer field reads as: a
    pointer object, also when the pointer is NULL, and never [None]. *)
Definition is_not_None {A} (p : option A) : bool := true.

(** [p.contents] for a pointer to a structure; ctypes raises
    [ValueError] on a NULL pointer. *)
Definition pointer_contents {A} (p : option A) : M A :=
  match p with
  | Some x => mret x
  | None => raise (ValueError (u "NULL pointer access"))
  end.

Definition groups_count : M Z :=
  kd ← getattr "_keyboard_description";
  desc ← contents kd;
  if is_not_None (ctrls desc) then
    kd ← getattr "_keyboard_description";
    desc ← contents kd;
    c ← pointer_contents (ctrls desc);
    mret (num_groups c)
  else
    groups_source ← _groups_source;
    result (count_groups (XkbNumKbdGroups K) groups_source 0).

(** The getter of the property [group_num]. *)
Definition group_num : M Z :=
  dpy ← getattr "_display";
  X_XkbGetState dpy (XkbUseCoreKbd K).

(** The setter of the property [group_num]; [value] is an [int], so
    [_ensure_type] passes. *)
Definition group_num_setter (value : Z) : M unit :=
  dpy ← getattr "_display";
  ok ← X_XkbLockGroup dpy (XkbUseCoreKbd K) value;
  if ok : bool then
    dpy ← getattr "_display";
    X_XFlush dpy
  else
    close_display;;
    raise (X11Error (u "Failed to set group number.")).

End Session.

(** ** The queries of [XKeyboard] *)

(** Modelled from the spec: [XGetAtomName] of the binding module [xkb]
    resolves an atom to text or to null, so its result is the bytes of
    the name or [None]. An atom is never renamed while the server runs:
    the name is a function of the atom, and the query, which changes
    nothing, is left out of the log. [decode] is [bytes.decode()], which
    returns the text or raises. *)
Record text_env : Type := {
  atom_name : N -> option (list N);
  decode : list N -> exn + str
}.

(** [GroupData = namedtuple("GroupData", ["num", "name", "symbol",
    "variant"])] *)
Record GroupData : Type := mkGroupData {
  gd_num : Z;
  gd_name : str;
  gd_symbol : str;
  gd_variant : str
}.

(** [range(n)] *)
Definition range (n : Z) : list Z := map Z.of_nat (seq 0 (Z.to_nat n)).

(** [arr[i]] on a ctypes array: a negative index counts from the end,
    and an index off the array raises [IndexError]. *)
Definition ctypes_item (arr : list N) (i : Z) : exn + N :=
  let j := if i <? 0 then i + Z.of_nat (length arr) else i in
  if (j <? 0) || (Z.of_nat (length arr) <=? j) then inl IndexError
  else match arr !! Z.to_nat j with
       | Some a => inr a
       | None => inl IndexError
       end.

(** [x or ""] for a string or [None]. *)
Definition or_empty (x : option str) : str :=
  match x with
  | Some ((_ :: _) as s) => s
  | _ => []
  end.

(** A dict comprehension [{k: v for ...}]: a later item replaces an
    earlier one of the same key. *)
Definition dict_of `{Countable Key} {V} (items : list (Key * V))
  : gmap Key V :=
  fold_left (fun m kv => <[kv.1 := kv.2]> m) items ∅.

(** A list comprehension over a method. *)
Fixpoint mapM {A B} (f : A -> M B) (l : list A) : M (list B) :=
  match l with
  | [] => mret []
  | x :: l' => y ← f x; ys ← mapM f l'; mret (y :: ys)
  end.

(** [zip] of four lists: as long as the shortest. *)
Fixpoint zip4 {A B C D} (a : list A) (b : list B) (c : list C) (d : list D)
  : list (A * B * C * D) :=
  match a, b, c, d with
  | x :: a', y :: b', z :: c', w :: d' => (x, y, z, w) :: zip4 a' b' c' d'
  | _, _, _, _ => []
  end.

(** [try: c except KeyError: handler] *)
Definition catch_KeyError {A} (c handler : M A) : M A :=
  fun st => match c st with
            | (inl (KeyError _), st') => handler st'
            | other => other
            end.

Section Queries.
Context (K : xkb_h) (srv : XServer) (U : UnicodeDB) (T : text_env).

Definition X_XGetAtomName (dpy atom : N) : M (option (list N)) :=
  mret (atom_name T atom).

Definition _symbols_source : M N :=
  n ← names_contents; mret (symbols n).

Definition _symboldata_list : M (list SymbolData) :=
  symbol_str_atom ← _symbols_source;
  if bool_decide (symbol_str_atom ≠ None_ K) then
    dpy ← getattr "_display";
    b_symbol_str ← X_XGetAtomName dpy symbol_str_atom;
    match b_symbol_str with
    | Some b =>
        symbols_str ← result (decode T b);
        result (_parse_symbols U symbols_str [u "pc"; u "inet"; u "group"] 0)
    | None => raise (AttributeError "decode")
    end
  else raise (X11Error (u "Failed to get symbol names.")).

Definition _get_group_name_by_num (group_num : Z) : M str :=
  groups_source ← _groups_source;
  cur_group_atom ← result (ctypes_item groups_source group_num);
  if bool_decide (cur_group_atom ≠ None_ K) then
    dpy ← getattr "_display";
    b_group_name ← X_XGetAtomName dpy cur_group_atom;
    match b_group_name with
    | Some ((_ :: _) as b) => result (decode T b)
    | _ => mret []
    end
  else raise (X11Error (u "Failed to get group name.")).

Definition groups_names : M (list str) :=
  n ← groups_count K;
  mapM _get_group_name_by_num (range n).

Definition groups_symbols : M (list str) :=
  l ← _symboldata_list; mret (map symbol l).

Definition groups_variants : M (list str) :=
  l ← _symboldata_list; mret (map (fun symdata => or_empty (variant symdata)) l).

Definition groups_data : M (list GroupData) :=
  n ← groups_count K;
  names ← groups_names;
  symbols ← groups_symbols;
  variants ← groups_variants;
  mret (map (fun '(num, name, symbol, variant) =>
               mkGroupData num name symbol variant)
          (zip4 (range n) names symbols variants)).

(** The getter of [group_name]. *)
Definition group_name : M str :=
  g ← group_num K srv;
  _get_group_name_by_num g.

(** The setter of [group_name]; [value] is a [str]. The [KeyError] of
    a name that is no key is caught at once. *)
Definition group_name_setter (value : str) : M unit :=
  groups_names ← groups_names;
  let n_mapping :=
    dict_of (zip groups_names (range (Z.of_nat (length groups_names)))) in
  match n_mapping !! value with
  | Some g =>
      catch_KeyError (group_num_setter K srv g)
        (raise (ValueError (u "Wrong group name.")))
  | None => raise (ValueError (u "Wrong group name."))
  end.

(** The getter of [group_symbol]. *)
Definition group_symbol : M str :=
  l ← _symboldata_list;
  let s_mapping := dict_of (map (fun symdata => (index symdata, symbol symdata)) l) in
  g ← group_num K srv;
  match s_mapping !! g with
  | Some s => mret s
  | None => raise (KeyError g)
  end.

(** The setter of [group_symbol]; [value] is a [str]. *)
Definition group_symbol_setter (value : str) : M unit :=
  l ← _symboldata_list;
  let s_mapping := dict_of (map (fun symdata => (symbol symdata, index symdata)) l) in
  match s_mapping !! value with
  | Some g =>
      catch_KeyError (group_num_setter K srv g)
        (raise (ValueError (u "Wrong group symbol.")))
  | None => raise (ValueError (u "Wrong group symbol."))
  end.

(** The getter of [group_variant]. *)
Definition group_variant : M str :=
  l ← _symboldata_list;
  let v_mapping := dict_of (map (fun symdata => (index symdata, variant symdata)) l) in
  g ← group_num K srv;
  match v_mapping !! g with
  | Some v => mret (or_empty v)
  | None => raise (KeyError g)
  end.

Definition group_data : M GroupData :=
  num ← group_num K srv;
  name ← group_name;
  symbol ← group_symbol;
  variant ← group_variant;
  mret (mkGroupData num name symbol variant).

End Queries.

(** The text of an ASCII-only server: two group names and a symbols
    string, decoded byte for byte. *)
Definition texts_ok : text_env :=
  {| atom_name := fun a =>
       if N.eqb a 300 then Some (u "pc+us+ru(phonetic):2+inet(evdev)")
       else if N.eqb a 301 then Some (u "English (US)")
       else if N.eqb a 302 then Some (u "Russian")
       else None;
     decode := fun b =>
       if forallb (fun c => N.ltb c 128) b then inr b
       else inl (ValueError (u "not ASCII")) |}.

(** A server that accepts everything: display 7, description 9, two
    groups. *)
Definition srv_ok : XServer :=
  {| open_display_reply := fun _ => (7%N, 0);
     get_map_reply := fun _ => 9%N;
     get_controls_reply :=
       fun _ => (Success X11_headers, {| num_groups := 2 |});
     get_names_reply :=
       fun _ => (Success X11_headers,
                 {| symbols := 300%N; groups := [301; 302; 0; 0]%N |});
     get_state_reply := fun _ => 0;
     lock_group_reply := fun _ => true |}.

(** The same server, but the keyboard description cannot be fetched. *)
Definition srv_no_keyboard : XServer :=
  {| open_display_reply := open_display_reply srv_ok;
     get_map_reply := fun _ => NULL;
     get_controls_reply := get_controls_reply srv_ok;
     get_names_reply := get_names_reply srv_ok;
     get_state_reply := get_state_reply srv_ok;
     lock_group_reply := lock_group_reply srv_ok |}.

(** The same server, but the controls fetch ends in BadAlloc. *)
Definition srv_no_controls : XServer :=
  {| open_display_reply := open_display_reply srv_ok;
     get_map_reply := get_map_reply srv_ok;
     get_controls_reply :=
       fun _ => (BadAlloc X11_headers, {| num_groups := 0 |});
     get_names_reply := get_names_reply srv_ok;
     get_state_reply := get_state_reply srv_ok;
     lock_group_reply := lock_group_reply srv_ok |}.

(** The same server, but it rejects every group lock. *)
Definition srv_no_lock : XServer :=
  {| open_display_reply := open_display_reply srv_ok;
     get_map_reply := get_map_reply srv_ok;
     get_controls_reply := get_controls_reply srv_ok;
     get_names_reply := get_names_reply srv_ok;
     get_state_reply := get_state_reply srv_ok;
     lock_group_reply := fun _ => false |}.

(** *** Runs of the session *)

(** [open_display] on the fresh instance, with everything accepted. *)
Definition opened : state := (open_display X11_headers srv_ok fresh).2.

(** [close_display] after it. *)
Definition opened_then_closed : state := (close_display X11_headers opened).2.

(** [open_display] on the fresh instance when the controls fetch fails,
    and when the description cannot be fetched. *)
Definition failed_at_controls : (exn + ()) * state :=
  open_display X11_headers srv_no_controls fresh.

Definition failed_at_map : (exn + ()) * state :=
  open_display X11_headers srv_no_keyboard fresh.

(** [xkb.group_num = 1] on an open session whose server refuses. *)
Definition rejected_lock : (exn + ()) * state :=
  group_num_setter X11_headers srv_no_lock 1
    (open_display X11_headers srv_no_lock fresh).2.




(** ** The session, in the words of the specification *)

(** A resource is held when its attribute is there and is not NULL. *)
Definition held (name : string) (st : state) : bool :=
  match self st !! name with
  | Some p => truthy p
  | None => false
  end.

(** The calls that release a keyboard description. *)
Definition release_calls (K : xkb_h) (kd : N) : list call :=
  [C_XkbFreeNames kd (Z.lor (XkbSymbolsNameMask K) (XkbGroupNamesMask K)) true;
   C_XkbFreeControls kd (XkbAllControlsMask K) true;
   C_XkbFreeClientMap kd 0 true].

(** The memory after them. *)
Definition released_memory (kd : N) (mem : gmap N XkbDescRec)
  : gmap N XkbDescRec :=
  alter (fun d => Build_XkbDescRec None (names d)) kd
    (alter (fun d => Build_XkbDescRec (ctrls d) None) kd mem).

(** The session is closed when it holds neither resource. *)
Definition closed (st : state) : Prop :=
  held "_keyboard_description" st = false ∧ held "_display" st = false.

(** From [st] to [st'] the connection was left alone: no [XCloseDisplay]
    was called and [_display] is what it was (for an instance that has no
    attribute [display], and then still has none). *)
Definition undisturbed (st st' : state) : Prop :=
  self st !! "display" = None →
  self st' !! "display" = None
  ∧ self st' !! "_display" = self st !! "_display"
  ∧ ∃ l, log st' = log st ++ l ∧ ∀ d, C_XCloseDisplay d ∉ l.

Definition steady {A} (c : M A) : Prop := ∀ st, undisturbed st (c st).2.

(** [open_display] from the test of [reason] on: what it does once
    [self._display] is assigned. *)
Definition after_connect (K : xkb_h) (srv : XServer) (reason : Z) : M unit :=
  (match OPEN_DISPLAY_ERRORS K !! reason with
   | Some msg => raise (X11Error (msg ++ u "."))
   | None => mret ()
   end);;
  dpy ← getattr "_display";
  kd ← X_XkbGetMap srv dpy 0 (XkbUseCoreKbd K);
  setattr "_keyboard_description" kd;;
  kd ← getattr "_keyboard_description";
  (if truthy kd then mret ()
   else close_display K;;
        raise (X11Error (u "Failed to get keyboard description.")));;
  dpy ← getattr "_display";
  kd ← getattr "_keyboard_description";
  status ← X_XkbGetControls K srv dpy (XkbAllControlsMask K) kd;
  (if bool_decide (status ≠ Success K) then
     close_display K;;
     msg ← subscript (GET_CONTROLS_ERRORS K) status;
     raise (X11Error (msg ++ u "."))
   else mret ());;
  let names_mask := Z.lor (XkbSymbolsNameMask K) (XkbGroupNamesMask K) in
  dpy ← getattr "_display";
  kd ← getattr "_keyboard_description";
  status ← X_XkbGetNames K srv dpy names_mask kd;
  (if bool_decide (status ≠ Success K) then
     close_display K;;
     msg ← subscript (GET_NAMES_ERRORS K) status;
     raise (X11Error (msg ++ u "."))
   else mret ()).

(** *** The steps of [open_display] *)

(** The calls of [open_display] up to the connection attempt, after
    those of the [close_display] it starts with. *)
Definition connect_log (K : xkb_h) (st : state) : list call :=
  log (close_display K st).2
  ++ [C_XkbIgnoreExtension false;
      C_XkbOpenDisplay (XkbMajorVersion K) (XkbMinorVersion K)].

(** The pointer [XkbOpenDisplay] returns, and the instance after it is
    assigned to [self._display]. *)
Definition connection (K : xkb_h) (srv : XServer) (st : state) : N :=
  (open_display_reply srv (connect_log K st)).1.

Definition connected (K : xkb_h) (srv : XServer) (st : state) : state :=
  mkState
    (<["_display" := connection K srv st]> (self (close_display K st).2))
    (connect_log K st)
    (memory (close_display K st).2).

(** The calls up to each fetch, and the description [XkbGetMap]
    returns. *)
Definition map_log (K : xkb_h) (srv : XServer) (st : state) : list call :=
  connect_log K st ++ [C_XkbGetMap (connection K srv st) 0 (XkbUseCoreKbd K)].

Definition description (K : xkb_h) (srv : XServer) (st : state) : N :=
  get_map_reply srv (map_log K srv st).

Definition controls_log (K : xkb_h) (srv : XServer) (st : state) : list call :=
  map_log K srv st
  ++ [C_XkbGetControls (connection K srv st) (XkbAllControlsMask K)
        (description K srv st)].

Definition names_log (K : xkb_h) (srv : XServer) (st : state) : list call :=
  controls_log K srv st
  ++ [C_XkbGetNames (connection K srv st)
        (Z.lor (XkbSymbolsNameMask K) (XkbGroupNamesMask K))
        (description K srv st)].

(** The instance once the description is fetched and assigned. *)
Definition described (K : xkb_h) (srv : XServer) (st : state)
    (log' : list call) (desc : XkbDescRec) : state :=
  mkState
    (<["_keyboard_description" := description K srv st]>
       (self (connected K srv st)))
    log'
    (<[description K srv st := desc]> (memory (connected K srv st))).

(** The instance after a fetch has failed and [close_display] has
    run. *)
Definition rolled_back (K : xkb_h) (srv : XServer) (st : state)
    (log' : list call) (desc : XkbDescRec) : state :=
  mkState
    (delete "_keyboard_description" (self (connected K srv st)))
    (log' ++ release_calls K (description K srv st))
    (released_memory (description K srv st)
       (<[description K srv st := desc]> (memory (connected K srv st)))).

(** A fetch that fails: the error of the table for the status, or the
    [KeyError] of a status the table does not have. *)
Definition fetch_error (table : gmap Z str) (status : Z) : exn :=
  match table !! status with
  | Some msg => X11Error (msg ++ u ".")
  | None => KeyError status
  end.

(** A method that only reads: it leaves the state as it found it. *)
Definition reads {A} (c : M A) : Prop := ∀ st, (c st).2 = st.

(** More servers: one that refuses the connection, one whose controls
    fetch ends in a status that [GET_CONTROLS_ERRORS] does not list, and
    one whose names fetch ends in BadLength. *)
Definition srv_refused : XServer :=
  {| open_display_reply :=
       fun _ => (NULL, XkbOD_ConnectionRefused X11_headers);
     get_map_reply := get_map_reply srv_ok;
     get_controls_reply := get_controls_reply srv_ok;
     get_names_reply := get_names_reply srv_ok;
     get_state_reply := get_state_reply srv_ok;
     lock_group_reply := lock_group_reply srv_ok |}.

Definition srv_odd_controls : XServer :=
  {| open_display_reply := open_display_reply srv_ok;
     get_map_reply := get_map_reply srv_ok;
     get_controls_reply :=
       fun _ => (BadLength X11_headers, {| num_groups := 0 |});
     get_names_reply := get_names_reply srv_ok;
     get_state_reply := get_state_reply srv_ok;
     lock_group_reply := lock_group_reply srv_ok |}.

Definition srv_no_names : XServer :=
  {| open_display_reply := open_display_reply srv_ok;
     get_map_reply := get_map_reply srv_ok;
     get_controls_reply := get_controls_reply srv_ok;
     get_names_reply :=
       fun _ => (BadLength X11_headers, {| symbols := 0%N; groups := [] |});
     get_state_reply := get_state_reply srv_ok;
     lock_group_reply := lock_group_reply srv_ok |}.

(** A server that reports the group that was locked last (0 before any
    lock). *)
Definition last_locked (l : list call) : Z :=
  fold_left (fun g c => match c with
                        | C_XkbLockGroup _ _ g' => g'
                        | _ => g
                        end) l 0.

Definition srv_groups : XServer :=
  {| open_display_reply := open_display_reply srv_ok;
     get_map_reply := get_map_reply srv_ok;
     get_controls_reply := get_controls_reply srv_ok;
     get_names_reply := get_names_reply srv_ok;
     get_state_reply := last_locked;
     lock_group_reply := lock_group_reply srv_ok |}.

(** A server that always reports group 3, and a session opened on it,
    on [srv_groups] and on [srv_ok]. *)
Definition srv_group3 : XServer :=
  {| open_display_reply := open_display_reply srv_ok;
     get_map_reply := get_map_reply srv_ok;
     get_controls_reply := get_controls_reply srv_ok;
     get_names_reply := get_names_reply srv_ok;
     get_state_reply := fun _ => 3;
     lock_group_reply := lock_group_reply srv_ok |}.

Definition opened_group3 : state :=
  (open_display X11_headers srv_group3 fresh).2.

Definition opened_groups : state :=
  (open_display X11_headers srv_groups fresh).2.

(** The text of a server with two layouts of one symbol. *)
Definition texts_dvorak : text_env :=
  {| atom_name := fun a =>
       if N.eqb a 300 then Some (u "pc+us+us(dvorak):2+inet(evdev)")
       else None;
     decode := decode texts_ok |}.

(** The records of the two symbols strings. *)
Definition records_ok : list SymbolData :=
  [mkSymbolData (u "us") None 0;
   mkSymbolData (u "ru") (Some (u "phonetic")) 1].

Definition records_dvorak : list SymbolData :=
  [mkSymbolData (u "us") None 0;
   mkSymbolData (u "us") (Some (u "dvorak")) 1].

(** ** [fullmatch] before Python 3.4 *)

(** [pattern.match(string)]: the first match from the start of the
    string, wherever it ends. The match object is its named groups, with
    the whole match, [group(0)], under the name 0. *)
Definition re_match (r : regex) (s : str) : option (gmap string str) :=
  run (Named "0" r) s ∅ (fun _ m => Some m).

(** [match.span()], for a match from position 0. *)
Definition match_span (m : gmap string str) : nat * nat :=
  (0%nat, length (default [] (m !! "0"))).

(** [_Compat_SRE_Pattern.fullmatch(string)], with [pos] and [endpos]
    left at [None]. *)
Definition compat_fullmatch (r : regex) (s : str)
  : option (gmap string str) :=
  let pos := 0%nat in
  let endpos := length s in
  match re_match r s with
  | Some m =>
      if bool_decide (match_span m ≠ (pos, endpos)) then None else Some m
  | None => None
  end.

(** ** The token grammar, in the words of the specification *)

Section Grammar.
Context (U : UnicodeDB).

(** [<word-chars>]: a run of one or more word characters. *)
Definition word_chars (w : str) : Prop :=
  w ≠ [] ∧ Forall (fun c => is_word U c = true) w.

(** [<digits>]: a run of one or more decimal digits. *)
Definition digits (ds : str) : Prop :=
  ds ≠ [] ∧ Forall (fun c => is_digit U c = true) ds.

(** The optional [(<word-chars>)] and the optional [:<digits>]. *)
Definition variant_text (ovar : option str) : str :=
  match ovar with Some v => [40%N] ++ v ++ [41%N] | None => [] end.

Definition index_text (oidx : option str) : str :=
  match oidx with Some ds => [58%N] ++ ds | None => [] end.

(** The whole token is a symbol, then the optional variant, then the
    optional index, and nothing else. *)
Definition token_shape (tok sym : str) (ovar oidx : option str) : Prop :=
  tok = sym ++ variant_text ovar ++ index_text oidx
  ∧ word_chars sym
  ∧ (∀ v, ovar = Some v → word_chars v)
  ∧ (∀ ds, oidx = Some ds → digits ds).

Definition matches_grammar (tok : str) : Prop :=
  ∃ sym ovar oidx, token_shape tok sym ovar oidx.

(** The index derivation rule: the 1-based suffix minus one, or the
    default. *)
Definition index_rule (default_index : Z) (oidx : option str) : Z :=
  match oidx with Some ds => int U ds - 1 | None => default_index end.

(** The symbol a token starts with: its leading word characters. *)
Fixpoint span (cls : N -> bool) (s : str) : str * str :=
  match s with
  | c :: s' =>
      if cls c then let (w, r) := span cls s' in (c :: w, r) else ([], s)
  | [] => ([], [])
  end.

(** Where a run stops: at the end, or at a character off the class. *)
Definition stops (cls : N -> bool) (r : str) : Prop :=
  match r with [] => True | c :: _ => cls c = false end.

Definition symbol_of (tok : str) : str := fst (span (is_word U) tok).

(** The tokens of the raw string that are kept. *)
Definition retained (raw : str) (ignored : list str) : list str :=
  filter (fun tok => symbol_of tok ∉ ignored) (split 43 raw).

(** A left-to-right scanner for the grammar, with no backtracking; the
    matcher is shown to agree with it. *)
Definition scan_index (r : str) : option (option str) :=
  match r with
  | [] => Some None
  | c :: r' =>
      if N.eqb c 58 then
        match span (is_digit U) r' with
        | ((_ :: _) as ds, []) => Some (Some ds)
        | _ => None
        end
      else None
  end.

Definition scan_tail (r : str) : option (option str * option str) :=
  match r with
  | [] => Some (None, None)
  | c :: r1 =>
      if N.eqb c 40 then
        match span (is_word U) r1 with
        | ((_ :: _) as v, c2 :: r3) =>
            if N.eqb c2 41
            then oi ← scan_index r3; Some (Some v, oi)
            else None
        | _ => None
        end
      else oi ← scan_index r; Some (None, oi)
  end.

Definition scan (tok : str) : option (str * option str * option str) :=
  match span (is_word U) tok with
  | ((_ :: _) as sym, r) => '(ov, oi) ← scan_tail r; Some (sym, ov, oi)
  | _ => None
  end.

Definition set_group (name : string) (o : option str) (m : gmap string str)
  : gmap string str :=
  match o with Some v => <[name := v]> m | None => m end.

(** The groups of the match of a token of the given parts. *)
Definition groups_of (sym : str) (ovar oidx : option str) : gmap string str :=
  set_group "index" oidx (set_group "variant" ovar (<["symbol" := sym]> ∅)).

(** The record [get_symboldata] builds from the parts. *)
Definition record_of (default_index : Z) (sym : str) (ovar oidx : option str)
  : SymbolData :=
  mkSymbolData sym ovar (index_rule default_index oidx).

(** The specification's ParseError: "a symbol token failed to match the
    expected grammar, or duplicate indices were detected after parsing".
    The first is the [X11Error] of [get_symboldata], the second the
    failed [assert] of [_parse_symbols]. *)
Inductive ParseError : exn -> Prop :=
| ParseError_malformed (symstr : str) :
    ParseError (X11Error (malformed symstr))
| ParseError_doubles : ParseError AssertionError.

(** Every token parsed to its record, in order. *)
Definition parsed_as (d : Z) (toks : list str) (all : list SymbolData)
  : Prop :=
  Forall2 (fun tok r => get_symboldata U d tok = inr r) toks all.

(** The scanner for a match from the start that may stop before the
    end: the parts found and the rest of the token. *)
Definition prefix_index (r : str) : option str * str :=
  match r with
  | c :: r' =>
      if N.eqb c 58 then
        match span (is_digit U) r' with
        | ((_ :: _) as ds, rest) => (Some ds, rest)
        | _ => (None, r)
        end
      else (None, r)
  | [] => (None, r)
  end.

Definition prefix_tail (r : str) : option str * option str * str :=
  let skip := (None, (prefix_index r).1, (prefix_index r).2) in
  match r with
  | c :: r1 =>
      if N.eqb c 40 then
        match span (is_word U) r1 with
        | ((_ :: _) as v, c2 :: r3) =>
            if N.eqb c2 41
            then (Some v, (prefix_index r3).1, (prefix_index r3).2)
            else skip
        | _ => skip
        end
      else skip
  | [] => skip
  end.

End Grammar.

(** ** The matcher *)

Section MatcherTheory.
Context (U : UnicodeDB).

Lemma span_app cls s w r : span cls s = (w, r) → s = w ++ r.
Proof.
  revert w r. induction s as [|c s IH]; intros w r; simpl.
  - by intros [= <- <-].
  - destruct (cls c).
    + destruct (span cls s) as [w' r'] eqn:E. intros [= <- <-].
      simpl. f_equal. by apply IH.
    + by intros [= <- <-].
Qed.

Lemma span_Forall cls s w r :
  span cls s = (w, r) → Forall (fun c => cls c = true) w.
Proof.
  revert w r. induction s as [|c s IH]; intros w r; simpl.
  - intros [= <- <-]. constructor.
  - destruct (cls c) eqn:Ec.
    + destruct (span cls s) as [w' r'] eqn:E. intros [= <- <-].
      constructor; [done | by eapply IH].
    + intros [= <- <-]. constructor.
Qed.

Lemma span_stops cls s w r : span cls s = (w, r) → stops cls r.
Proof.
  revert w r. induction s as [|c s IH]; intros w r; simpl.
  - by intros [= <- <-].
  - destruct (cls c) eqn:Ec.
    + destruct (span cls s) as [w' r'] eqn:E. intros [= <- <-].
      by eapply IH.
    + by intros [= <- <-].
Qed.

Lemma span_run cls w r :
  Forall (fun c => cls c = true) w → stops cls r → span cls (w ++ r) = (w, r).
Proof.
  intros Hw Hr. induction Hw as [|c w Hc _ IH]; simpl.
  - destruct r as [|c r]; [done|]. simpl in *. by rewrite Hr.
  - by rewrite Hc, IH.
Qed.

Lemma consumed_app (w r : str) : consumed (w ++ r) r = w.
Proof.
  unfold consumed. rewrite length_app.
  replace (length w + length r - length r)%nat with (length w) by lia.
  by rewrite firstn_app, firstn_all, Nat.sub_diag, firstn_O, app_nil_r.
Qed.

(** The greedy run takes the whole span when the rest of the pattern
    cannot start with a character of the class: giving characters back
    never helps. *)
Lemma plus_greedy_span {A} cls s (k : str → option A) :
  (∀ c t, cls c = true → k (c :: t) = None) →
  plus_greedy cls s k
  = match span cls s with (_ :: _, r) => k r | ([], _) => None end.
Proof.
  intros Hk. induction s as [|c s IH]; simpl; [done|].
  destruct (cls c) eqn:Ec; [|done].
  rewrite IH. destruct (span cls s) as [[|c' w] r] eqn:E.
  - apply span_app in E as ->. done.
  - destruct (k r) eqn:Er; [done|].
    apply span_Forall in E as Hw. apply span_app in E as ->.
    apply Hk. by inversion Hw.
Qed.

Lemma run_named_plus name cls s m k :
  (∀ c t m', cls c = true → k (c :: t) m' = None) →
  run (Named name (Plus cls)) s m k
  = match span cls s with
    | ((_ :: _) as w, r) => k r (<[name := w]> m)
    | ([], _) => None
    end.
Proof.
  intros Hk. cbn [run]. rewrite plus_greedy_span by (intros; by apply Hk).
  destruct (span cls s) as [[|c w] r] eqn:E; [done|].
  apply span_app in E as ->. by rewrite consumed_app.
Qed.

End MatcherTheory.

(** ** [SYMBOL_REGEX] against the scanner *)

Section SymbolRegexTheory.
Context (U : UnicodeDB).

Local Abbreviation OptIndex :=
  (Opt (Cat (Chr 58) (Named "index" (Plus (is_digit U))))).
Local Abbreviation OptVariant :=
  (Opt (Cat (Chr 40) (Cat (Named "variant" (Plus (is_word U))) (Chr 41)))).

Lemma punctuation_not_word :
  is_word U 40 = false ∧ is_word U 41 = false ∧ is_word U 58 = false.
Proof. by repeat split. Qed.

Lemma word_is_not c x :
  is_word U c = true → is_word U x = false → N.eqb c x = false.
Proof.
  intros Hc Hx. destruct (N.eqb_spec c x) as [->|]; [congruence | done].
Qed.

Lemma run_chr c s m k :
  run (Chr c) s m k
  = match s with
    | x :: s' => if N.eqb x c then k s' m else None
    | [] => None
    end.
Proof. done. Qed.

Lemma run_cat r1 r2 s m k :
  run (Cat r1 r2) s m k = run r1 s m (fun s' m' => run r2 s' m' k).
Proof. done. Qed.

Lemma run_opt r1 s m k :
  run (Opt r1) s m k
  = match run r1 s m k with Some m' => Some m' | None => k s m end.
Proof. done. Qed.

Lemma run_index r m :
  run OptIndex r m at_end
  = (fun oi => set_group "index" oi m) <$> scan_index U r.
Proof.
  destruct r as [|c r]; [done|].
  rewrite run_opt, run_cat, run_chr. cbn [scan_index].
  destruct (N.eqb c 58); [|done].
  rewrite run_named_plus by done.
  destruct (span (is_digit U) r) as [[|d ds] [|x r']]; done.
Qed.

Lemma index_rejects_word c t m :
  is_word U c = true → run OptIndex (c :: t) m at_end = None.
Proof.
  intros Hc. rewrite run_index. cbn [scan_index].
  by rewrite (word_is_not c 58).
Qed.

Lemma run_tail r m :
  run (Cat OptVariant OptIndex) r m at_end
  = (fun p => set_group "index" p.2 (set_group "variant" p.1 m))
      <$> scan_tail U r.
Proof.
  destruct r as [|c r1]; [done|].
  rewrite run_cat, run_opt, run_cat, run_chr, (run_index (c :: r1)).
  cbn [scan_tail]. destruct (N.eqb_spec c 40) as [->|Hc].
  - rewrite run_cat, run_named_plus.
    2:{ intros c t m' Hw. rewrite run_chr. by rewrite (word_is_not c 41). }
    cbn [scan_index]. change (N.eqb 40 58) with false.
    cbn [fmap option_fmap option_map].
    destruct (span (is_word U) r1) as [[|v vs] [|x r3]]; try done.
    rewrite run_chr. destruct (N.eqb x 41); [|done].
    rewrite run_index. by destruct (scan_index U r3).
  - by destruct (scan_index U (c :: r1)).
Qed.

Lemma tail_rejects_word c t m :
  is_word U c = true → run (Cat OptVariant OptIndex) (c :: t) m at_end = None.
Proof.
  intros Hc. rewrite run_tail. cbn [scan_tail].
  rewrite (word_is_not c 40) by done. cbn [scan_index].
  by rewrite (word_is_not c 58).
Qed.

(** The matcher and the scanner agree on every token. *)
Lemma fullmatch_scan tok :
  fullmatch (SYMBOL_REGEX U) tok
  = (fun p => groups_of p.1.1 p.1.2 p.2) <$> scan U tok.
Proof.
  unfold fullmatch, SYMBOL_REGEX. rewrite run_cat.
  rewrite run_named_plus by (intros; by apply tail_rejects_word).
  unfold scan. destruct (span (is_word U) tok) as [[|c w] r]; [done|].
  rewrite run_tail. by destruct (scan_tail U r) as [[ov oi]|].
Qed.

End SymbolRegexTheory.

(** ** The scanner against the grammar *)

Section GrammarTheory.
Context (U : UnicodeDB).

Lemma scan_index_sound r oi :
  scan_index U r = Some oi →
  r = index_text oi ∧ (∀ ds, oi = Some ds → digits U ds).
Proof.
  destruct r as [|c r]; simpl.
  - intros [= <-]. by split.
  - destruct (N.eqb_spec c 58) as [->|]; [|done].
    destruct (span (is_digit U) r) as [[|d ds] [|x r']] eqn:E; try done.
    intros [= <-]. apply span_Forall in E as Hd.
    apply span_app in E as ->. rewrite app_nil_r. split; [done|].
    by intros ? [= <-].
Qed.

Lemma scan_index_complete oi :
  (∀ ds, oi = Some ds → digits U ds) → scan_index U (index_text oi) = Some oi.
Proof.
  destruct oi as [ds|]; [|done]. intros H.
  destruct (H ds eq_refl) as [Hne Hd]. simpl.
  rewrite <- (app_nil_r ds) at 1. rewrite span_run by done.
  by destruct ds.
Qed.

Lemma scan_tail_sound r ov oi :
  scan_tail U r = Some (ov, oi) →
  r = variant_text ov ++ index_text oi
  ∧ (∀ v, ov = Some v → word_chars U v)
  ∧ (∀ ds, oi = Some ds → digits U ds).
Proof.
  destruct r as [|c r1]; cbn [scan_tail].
  - intros [= <- <-]. split; [done | split; [done | done]].
  - destruct (N.eqb_spec c 40) as [->|Hc].
    + destruct (span (is_word U) r1) as [[|v vs] [|x r3]] eqn:E; try done.
      destruct (N.eqb_spec x 41) as [->|]; [|done].
      destruct (scan_index U r3) as [oi'|] eqn:Ei; [|done].
      intros [= <- <-]. apply scan_index_sound in Ei as [-> Hoi].
      apply span_Forall in E as Hv. apply span_app in E as ->.
      split; [|split; [|done]].
      * simpl. by rewrite <- !app_assoc.
      * by intros ? [= <-].
    + destruct (scan_index U (c :: r1)) as [oi'|] eqn:Ei; [|done].
      intros [= <- <-]. apply scan_index_sound in Ei as [-> Hoi].
      split; [done | split; [done | done]].
Qed.

Lemma scan_tail_complete ov oi :
  (∀ v, ov = Some v → word_chars U v) →
  (∀ ds, oi = Some ds → digits U ds) →
  scan_tail U (variant_text ov ++ index_text oi) = Some (ov, oi).
Proof.
  intros Hov Hoi. destruct ov as [v|].
  - destruct (Hov v eq_refl) as [Hne Hv]. simpl.
    rewrite <- app_assoc. rewrite span_run by done.
    destruct v as [|c v]; [done|]. simpl.
    by rewrite scan_index_complete.
  - simpl. pose proof (scan_index_complete oi Hoi) as Hi.
    destruct oi as [ds|]; [|done]. simpl in *. by rewrite Hi.
Qed.

(** The scanner accepts a token exactly when it has the shape the
    grammar asks for, and it finds the parts. *)
Lemma scan_sound tok sym ov oi :
  scan U tok = Some (sym, ov, oi) → token_shape U tok sym ov oi.
Proof.
  unfold scan.
  destruct (span (is_word U) tok) as [[|c w] r] eqn:E; [done|].
  destruct (scan_tail U r) as [[ov' oi']|] eqn:Et; [|done].
  intros [= <- <- <-]. apply scan_tail_sound in Et as (-> & Hov & Hoi).
  apply span_Forall in E as Hw. apply span_app in E as ->.
  split; [done | split; [done | split; [done | done]]].
Qed.

Lemma tail_stops ov oi :
  stops (is_word U) (variant_text ov ++ index_text oi).
Proof. by destruct ov, oi. Qed.

Lemma scan_complete tok sym ov oi :
  token_shape U tok sym ov oi → scan U tok = Some (sym, ov, oi).
Proof.
  intros (-> & [Hne Hw] & Hov & Hoi). unfold scan.
  rewrite span_run by auto using tail_stops.
  destruct sym as [|c w]; [done|].
  by rewrite scan_tail_complete.
Qed.

Lemma scan_grammar tok : is_Some (scan U tok) ↔ matches_grammar U tok.
Proof.
  split.
  - intros [[[sym ov] oi] H]. exists sym, ov, oi. by apply scan_sound.
  - intros (sym & ov & oi & H). rewrite (scan_complete _ _ _ _ H). eauto.
Qed.

(** The parts of a token are unique. *)
Lemma token_shape_unique tok sym ov oi sym' ov' oi' :
  token_shape U tok sym ov oi → token_shape U tok sym' ov' oi' →
  sym = sym' ∧ ov = ov' ∧ oi = oi'.
Proof.
  intros H H'. apply scan_complete in H, H'.
  rewrite H in H'. by injection H' as <- <- <-.
Qed.

Lemma token_shape_symbol tok sym ov oi :
  token_shape U tok sym ov oi → symbol_of U tok = sym.
Proof.
  intros (-> & [Hne Hw] & _). unfold symbol_of.
  by rewrite span_run by auto using tail_stops.
Qed.

(** [get_symboldata] through the scanner. *)
Lemma get_symboldata_scan d tok :
  get_symboldata U d tok
  = match scan U tok with
    | Some (sym, ov, oi) => inr (record_of U d sym ov oi)
    | None => inl (X11Error (malformed tok))
    end.
Proof.
  unfold get_symboldata. rewrite fullmatch_scan.
  destruct (scan U tok) as [[[sym ov] oi]|]; [|done].
  cbn [fmap option_fmap option_map fst snd]. unfold record_of, group.
  f_equal. unfold groups_of. by destruct ov, oi.
Qed.

(** The group [symbol] takes part in every match. *)
Lemma fullmatch_symbol_set tok m :
  fullmatch (SYMBOL_REGEX U) tok = Some m → is_Some (group m "symbol").
Proof.
  rewrite fullmatch_scan.
  destruct (scan U tok) as [[[sym ov] oi]|]; [|done].
  intros [= <-]. exists sym. unfold group, groups_of. by destruct ov, oi.
Qed.

Lemma get_symboldata_ok d tok r :
  get_symboldata U d tok = inr r ↔
  ∃ sym ov oi, token_shape U tok sym ov oi ∧ r = record_of U d sym ov oi.
Proof.
  rewrite get_symboldata_scan. split.
  - destruct (scan U tok) as [[[sym ov] oi]|] eqn:E; [|done].
    intros [= <-]. exists sym, ov, oi. split; [by apply scan_sound | done].
  - intros (sym & ov & oi & H & ->). by rewrite (scan_complete _ _ _ _ H).
Qed.

Lemma get_symboldata_error d tok e :
  get_symboldata U d tok = inl e ↔
  ¬ matches_grammar U tok ∧ e = X11Error (malformed tok).
Proof.
  rewrite get_symboldata_scan, <- scan_grammar. split.
  - destruct (scan U tok) as [[[sym ov] oi]|] eqn:E; [done|].
    intros [= <-]. split; [|done]. by intros [? ?].
  - intros [Hn ->]. destruct (scan U tok) as [[[sym ov] oi]|]; [|done].
    destruct Hn. eauto.
Qed.

End GrammarTheory.

(** ** The parser *)

Section ParserTheory.
Context (U : UnicodeDB).

Lemma parse_loop_ok ns d toks acc l :
  parse_loop U ns d toks acc = inr l ↔
  ∃ all, parsed_as U d toks all
         ∧ l = acc ++ filter (fun r => symbol r ∉ ns) all.
Proof.
  revert acc. induction toks as [|tok toks IH]; intros acc; simpl.
  - split.
    + intros [= <-]. exists []. split; [constructor|].
      by rewrite filter_nil, app_nil_r.
    + intros (all & Hall & ->). inversion Hall; subst.
      by rewrite filter_nil, app_nil_r.
  - destruct (get_symboldata U d tok) as [e|r] eqn:E.
    + split; [done|]. intros (all & Hall & _).
      inversion Hall; subst. congruence.
    + case_bool_decide as Hin; rewrite IH; split.
      * intros (all & Hall & ->). exists (r :: all).
        split; [by constructor|].
        by rewrite filter_cons_True, <- app_assoc by done.
      * intros (all & Hall & ->). inversion Hall as [|? r' ? all' Hr]; subst.
        assert (r' = r) as -> by congruence. exists all'.
        split; [done|]. by rewrite filter_cons_True, <- app_assoc by done.
      * intros (all & Hall & ->). exists (r :: all).
        split; [by constructor|]. by rewrite filter_cons_False by (simpl; auto).
      * intros (all & Hall & ->). inversion Hall as [|? r' ? all' Hr]; subst.
        assert (r' = r) as -> by congruence. exists all'.
        split; [done|]. by rewrite filter_cons_False by (simpl; auto).
Qed.

(** The loop stops at the first token off the grammar. *)
Lemma parse_loop_error ns d toks acc e :
  parse_loop U ns d toks acc = inl e ↔
  ∃ good bad rest,
    toks = good ++ bad :: rest
    ∧ Forall (matches_grammar U) good
    ∧ ¬ matches_grammar U bad
    ∧ e = X11Error (malformed bad).
Proof.
  revert acc. induction toks as [|tok toks IH]; intros acc; simpl.
  - split; [done|]. intros (good & bad & rest & H & _). by destruct good.
  - destruct (get_symboldata U d tok) as [e'|r] eqn:E.
    + apply get_symboldata_error in E as [Hbad ->]. split.
      * intros [= <-]. exists [], tok, toks. by repeat split.
      * intros (good & bad & rest & H & Hgood & Hn & ->).
        destruct good as [|g good]; simpl in H.
        -- by injection H as <- <-.
        -- injection H as <- ->. by inversion Hgood.
    + assert (matches_grammar U tok) as Htok.
      { apply get_symboldata_ok in E as (sym & ov & oi & H & _).
        by exists sym, ov, oi. }
      assert (∀ acc', parse_loop U ns d toks acc' = inl e ↔
              ∃ good bad rest, tok :: toks = good ++ bad :: rest
                ∧ Forall (matches_grammar U) good
                ∧ ¬ matches_grammar U bad ∧ e = X11Error (malformed bad))
        as Hstep.
      { intros acc'. rewrite IH. split.
        - intros (good & bad & rest & -> & Hgood & Hn & ->).
          exists (tok :: good), bad, rest.
          split; [done | split; [by constructor | done]].
        - intros (good & bad & rest & H & Hgood & Hn & ->).
          destruct good as [|g good]; simpl in H.
          + injection H as <- <-. done.
          + injection H as <- ->. exists good, bad, rest.
            split; [done | split; [by inversion Hgood | done]]. }
      case_bool_decide; apply Hstep.
Qed.

Lemma size_list_to_set_le (l : list Z) :
  (size (list_to_set (C := gset Z) l) ≤ length l)%nat.
Proof.
  induction l as [|x l IH].
  - rewrite list_to_set_nil, size_empty. done.
  - rewrite list_to_set_cons, size_union_alt, size_singleton. simpl.
    assert (size (list_to_set (C := gset Z) l ∖ {[x]})
            ≤ size (list_to_set (C := gset Z) l))%nat as Hsub.
    { apply subseteq_size. apply subseteq_difference_l. done. }
    lia.
Qed.

(** The [assert] of [_parse_symbols] holds exactly when no index
    occurs twice. *)
Lemma no_doubles (l : list Z) :
  length l = size (list_to_set (C := gset Z) l) ↔ NoDup l.
Proof.
  split; [|intros H; by rewrite size_list_to_set].
  induction l as [|x l IH]; [constructor|].
  rewrite list_to_set_cons. simpl.
  intros Hlen. destruct (decide (x ∈ l)) as [Hin|Hin].
  - assert ({[x]} ∪ list_to_set l = (list_to_set l : gset Z)) as Heq.
    { apply subseteq_union_1_L, singleton_subseteq_l.
      by apply elem_of_list_to_set. }
    rewrite Heq in Hlen. pose proof (size_list_to_set_le l). lia.
  - constructor; [done|]. apply IH.
    rewrite size_union, size_singleton in Hlen; [lia|].
    apply disjoint_singleton_l. by rewrite elem_of_list_to_set.
Qed.

Lemma _parse_symbols_ok s ns d l :
  _parse_symbols U s ns d = inr l ↔
  ∃ all, parsed_as U d (split 43 s) all
         ∧ l = filter (fun r => symbol r ∉ ns) all
         ∧ NoDup (map index l).
Proof.
  unfold _parse_symbols.
  destruct (parse_loop U ns d (split 43 s) []) as [e|l'] eqn:E; simpl.
  - split; [done|]. intros (all & Hall & -> & _).
    assert (parse_loop U ns d (split 43 s) []
            = inr (filter (fun r => symbol r ∉ ns) all)) as E'
      by (apply parse_loop_ok; eauto).
    congruence.
  - apply parse_loop_ok in E as (all & Hall & ->). simpl.
    case_bool_decide as Hdup; rewrite no_doubles in Hdup; split.
    + intros [= <-]. eauto.
    + intros (all' & Hall' & -> & _). f_equal.
      assert (parse_loop U ns d (split 43 s) []
              = inr (filter (fun r => symbol r ∉ ns) all')) as E'
        by (apply parse_loop_ok; eauto).
      assert (parse_loop U ns d (split 43 s) []
              = inr (filter (fun r => symbol r ∉ ns) all)) as E''
        by (apply parse_loop_ok; eauto).
      congruence.
    + done.
    + intros (all' & Hall' & -> & Hnd). destruct Hdup.
      assert (parse_loop U ns d (split 43 s) []
              = inr (filter (fun r => symbol r ∉ ns) all')) as E'
        by (apply parse_loop_ok; eauto).
      assert (parse_loop U ns d (split 43 s) []
              = inr (filter (fun r => symbol r ∉ ns) all)) as E''
        by (apply parse_loop_ok; eauto).
      congruence.
Qed.

Lemma _parse_symbols_doubles s ns d all :
  parsed_as U d (split 43 s) all →
  ¬ NoDup (map index (filter (fun r => symbol r ∉ ns) all)) →
  _parse_symbols U s ns d = inl AssertionError.
Proof.
  intros Hall Hdup. unfold _parse_symbols.
  assert (parse_loop U ns d (split 43 s) []
          = inr (filter (fun r => symbol r ∉ ns) all)) as ->
    by (apply parse_loop_ok; eauto).
  case_bool_decide as H; [|done]. by apply no_doubles in H.
Qed.

Lemma _parse_symbols_malformed s ns d e :
  parse_loop U ns d (split 43 s) [] = inl e → _parse_symbols U s ns d = inl e.
Proof. unfold _parse_symbols. by intros ->. Qed.

(** The records kept are those of the tokens kept, in order. *)
Lemma parsed_as_retained (ns : list str) d toks all :
  parsed_as U d toks all →
  parsed_as U d (filter (fun tok => symbol_of U tok ∉ ns) toks)
              (filter (fun r => symbol r ∉ ns) all).
Proof.
  induction 1 as [|tok r toks all Hr Hall IH]; [constructor|].
  assert (symbol r = symbol_of U tok) as Hsym.
  { apply get_symboldata_ok in Hr as (sym & ov & oi & H & ->).
    by rewrite (token_shape_symbol _ _ _ _ _ H). }
  destruct (decide (symbol r ∈ ns)) as [Hin|Hin].
  - rewrite !filter_cons_False; [done| |]; intros Hn; apply Hn; congruence.
  - rewrite !filter_cons_True; [by constructor| |]; congruence.
Qed.

End ParserTheory.

(** ** The properties of the parser *)

Section ParserProperties.
Context (U : UnicodeDB).

Lemma digit_value_nonneg c : is_digit U c = true → 0 ≤ digit_value U c.
Proof.
  unfold is_digit, digit_value. destruct (c <? 128)%N; [|lia].
  intros [H _]%andb_prop. apply N.leb_le in H. lia.
Qed.

Lemma fold_digits_nonneg ds acc :
  Forall (fun c => is_digit U c = true) ds → 0 ≤ acc →
  0 ≤ fold_left (fun a c => 10 * a + digit_value U c) ds acc.
Proof.
  intros H. revert acc.
  induction H as [|c ds Hc _ IH]; intros acc Hacc; simpl; [done|].
  apply IH. pose proof (digit_value_nonneg c Hc). lia.
Qed.

Lemma int_nonneg ds : digits U ds → 0 ≤ int U ds.
Proof. intros [_ H]. by apply fold_digits_nonneg. Qed.

(** What a successful parse returns, token by token. *)
Lemma parse_retained raw ignored l :
  parse U raw ignored = inr l → parsed_as U 0 (retained U raw ignored) l.
Proof.
  intros H. apply _parse_symbols_ok in H as (all & Hall & -> & _).
  by apply parsed_as_retained.
Qed.

(** C4. If two retained tokens resolve to the same index, [parse] fails
    with a ParseError: the failed [assert] ([AssertionError]) when every
    token is well formed, the [X11Error] of the first malformed token
    otherwise. "pc+us:1+ru:1" with "pc" ignored fails, and
    "pc+us:1+ru:2" with "pc" ignored gives exactly two records. *)
Theorem parse_duplicate_index_fails :
  (∀ (raw : str) (ignored : list str) (i j : nat) (tok1 tok2 : str)
     (r1 r2 : SymbolData),
      i ≠ j →
      retained U raw ignored !! i = Some tok1 →
      retained U raw ignored !! j = Some tok2 →
      get_symboldata U 0 tok1 = inr r1 →
      get_symboldata U 0 tok2 = inr r2 →
      index r1 = index r2 →
      ∃ e, parse U raw ignored = inl e
           ∧ ParseError e
           ∧ (Forall (matches_grammar U) (split 43 raw) → e = AssertionError))
  ∧ parse U (u "pc+us:1+ru:1") [u "pc"] = inl AssertionError
  ∧ parse U (u "pc+us:1+ru:2") [u "pc"]
    = inr [mkSymbolData (u "us") None 0; mkSymbolData (u "ru") None 1].
Proof.
  split; [|split; reflexivity].
  intros raw ignored i j tok1 tok2 r1 r2 Hij Hi Hj H1 H2 Hidx.
  unfold parse.
  destruct (parse_loop U ignored 0 (split 43 raw) []) as [e|l] eqn:E.
  - exists e. split; [by apply _parse_symbols_malformed|].
    apply parse_loop_error in E as (good & bad & rest & Hs & _ & Hbad & ->).
    split; [constructor|]. intros Hall. destruct Hbad.
    rewrite Hs in Hall. apply Forall_app in Hall as [_ Hall].
    by inversion Hall.
  - exists AssertionError.
    apply parse_loop_ok in E as (all & Hall & _).
    split; [|split; [constructor | done]].
    apply (_parse_symbols_doubles U raw ignored 0 all Hall).
    intros Hnd. apply Hij.
    pose proof (parsed_as_retained U ignored 0 _ _ Hall) as Hret.
    destruct (Forall2_lookup_l _ _ _ _ _ Hret Hi) as (r1' & Hi' & H1').
    destruct (Forall2_lookup_l _ _ _ _ _ Hret Hj) as (r2' & Hj' & H2').
    assert (r1' = r1) as -> by congruence.
    assert (r2' = r2) as -> by congruence.
    change (map index ?l) with (index <$> l) in Hnd.
    apply (NoDup_lookup _ i j (index r1) Hnd).
    + by rewrite list_lookup_fmap, Hi'.
    + by rewrite list_lookup_fmap, Hj', Hidx.
Qed.

(** C5. In a successful parse every retained token has the shape of
    the grammar, and its record has the index of the rule: the explicit
    1-based suffix minus one when there is a suffix, and the one
    default index 0 for every token without. "us+ru(phonetic):2+fr:3"
    gives "us" index 0, "ru" index 1 and "fr" index 2. *)
Theorem parse_index_rule :
  (∀ (raw : str) (ignored : list str) (l : list SymbolData),
      parse U raw ignored = inr l →
      Forall2
        (fun tok r =>
           ∃ sym ovar oidx,
             token_shape U tok sym ovar oidx
             ∧ symbol r = sym
             ∧ index r = match oidx with
                         | Some ds => int U ds - 1
                         | None => 0
                         end)
        (retained U raw ignored) l)
  ∧ parse U (u "us+ru(phonetic):2+fr:3") []
    = inr [mkSymbolData (u "us") None 0;
           mkSymbolData (u "ru") (Some (u "phonetic")) 1;
           mkSymbolData (u "fr") None 2].
Proof.
  split; [|reflexivity].
  intros raw ignored l Hl%parse_retained.
  eapply Forall2_impl; [exact Hl|]. simpl.
  intros tok r (sym & ov & oi & Hshape & ->)%get_symboldata_ok.
  by exists sym, ov, oi.
Qed.

(** C6, as amended. Every record of a successful parse has an index of
    at least -1, and the index is -1 exactly for a retained token whose
    explicit suffix denotes zero; every other record has a
    non-negative index. *)
Theorem parse_index_lower_bound (raw : str) (ignored : list str)
    (l : list SymbolData) :
  parse U raw ignored = inr l →
  Forall2
    (fun tok r =>
       -1 ≤ index r
       ∧ (index r = -1 ↔
          ∃ sym ovar ds,
            token_shape U tok sym ovar (Some ds) ∧ int U ds = 0))
    (retained U raw ignored) l.
Proof.
  intros Hl%parse_retained.
  eapply Forall2_impl; [exact Hl|]. simpl.
  intros tok r (sym & ov & oi & Hshape & ->)%get_symboldata_ok.
  unfold record_of, index_rule. simpl.
  destruct oi as [ds|].
  - assert (0 ≤ int U ds) as Hds.
    { apply int_nonneg. destruct Hshape as (_ & _ & _ & H). by apply H. }
    split; [lia|]. split.
    + intros H. exists sym, ov, ds. split; [done | lia].
    + intros (sym' & ov' & ds' & Hshape' & H0).
      destruct (token_shape_unique U _ _ _ _ _ _ _ Hshape Hshape')
        as (_ & _ & [= ->]).
      lia.
  - split; [lia|]. split; [lia|].
    intros (sym' & ov' & ds' & Hshape' & _).
    by destruct (token_shape_unique U _ _ _ _ _ _ _ Hshape Hshape')
      as (_ & _ & ?).
Qed.

(** C7. A successful parse returns the records of the tokens in input
    order with those of an ignored symbol left out, so no record of the
    result has an ignored symbol. "pc+inet+us+ru(phonetic):2" with
    "pc" and "inet" ignored gives exactly the records of "us" (index 0)
    and of "ru" (variant "phonetic", index 1). *)
Theorem parse_ignores_non_symbols :
  (∀ (raw : str) (ignored : list str) (l : list SymbolData),
      parse U raw ignored = inr l →
      (∀ r, r ∈ l → symbol r ∉ ignored)
      ∧ ∃ all,
          parsed_as U 0 (split 43 raw) all
          ∧ l = filter (fun r => symbol r ∉ ignored) all)
  ∧ parse U (u "pc+inet+us+ru(phonetic):2") [u "pc"; u "inet"]
    = inr [mkSymbolData (u "us") None 0;
           mkSymbolData (u "ru") (Some (u "phonetic")) 1].
Proof.
  split; [|reflexivity].
  intros raw ignored l H.
  apply _parse_symbols_ok in H as (all & Hall & -> & _). split.
  - by intros r [H _]%list_elem_of_filter.
  - by exists all.
Qed.

(** C8. The matcher accepts a token exactly when the whole token has
    the shape of the anchored grammar, and [parse] fails with the
    ParseError of the first token that has not, whatever is ignored.
    "us)(bad" is rejected. *)
Theorem parse_rejects_malformed :
  (∀ tok : str,
      is_Some (fullmatch (SYMBOL_REGEX U) tok) ↔ matches_grammar U tok)
  ∧ (∀ (raw : str) (ignored : list str) (tok : str),
        tok ∈ split 43 raw →
        ¬ matches_grammar U tok →
        ∃ good bad rest,
          split 43 raw = good ++ bad :: rest
          ∧ Forall (matches_grammar U) good
          ∧ ¬ matches_grammar U bad
          ∧ parse U raw ignored = inl (X11Error (malformed bad))
          ∧ ParseError (X11Error (malformed bad)))
  ∧ parse U (u "us)(bad") [] = inl (X11Error (malformed (u "us)(bad"))).
Proof.
  split; [|split; [|reflexivity]].
  - intros tok. rewrite fullmatch_scan, <- scan_grammar.
    destruct (scan U tok); simpl; split; intros [? ?]; eauto; done.
  - intros raw ignored tok Hin Hbad.
    destruct (parse_loop U ignored 0 (split 43 raw) []) as [e|l] eqn:E.
    + pose proof E as E'.
      apply parse_loop_error in E as (good & bad & rest & Hs & Hg & Hb & ->).
      exists good, bad, rest.
      split; [done | split; [done | split; [done | split]]].
      * by apply _parse_symbols_malformed.
      * constructor.
    + apply parse_loop_ok in E as (all & Hall & _). destruct Hbad.
      apply list_elem_of_lookup in Hin as [i Hi].
      destruct (Forall2_lookup_l _ _ _ _ _ Hall Hi) as (r & _ & Hr).
      apply get_symboldata_ok in Hr as (sym & ov & oi & H & _).
      by exists sym, ov, oi.
Qed.

End ParserProperties.

(** C4, at an input. *)
Lemma parse_duplicate_index_fails_witness :
  ∃ e, parse ascii_db (u "pc+us:1+ru:1") [u "pc"] = inl e
       ∧ ParseError e
       ∧ (Forall (matches_grammar ascii_db) (split 43 (u "pc+us:1+ru:1")) →
          e = AssertionError).
Proof.
  apply (proj1 (parse_duplicate_index_fails ascii_db)
           (u "pc+us:1+ru:1") [u "pc"] 0%nat 1%nat (u "us:1") (u "ru:1")
           (mkSymbolData (u "us") None 0) (mkSymbolData (u "ru") None 0));
    [lia | reflexivity | reflexivity | reflexivity | reflexivity | reflexivity].
Defined.

(** C5, at an input. *)
Lemma parse_index_rule_witness :
  Forall2
    (fun tok r =>
       ∃ sym ovar oidx,
         token_shape ascii_db tok sym ovar oidx
         ∧ symbol r = sym
         ∧ index r = match oidx with
                     | Some ds => int ascii_db ds - 1
                     | None => 0
                     end)
    (retained ascii_db (u "us+ru(phonetic):2+fr:3") [])
    [mkSymbolData (u "us") None 0;
     mkSymbolData (u "ru") (Some (u "phonetic")) 1;
     mkSymbolData (u "fr") None 2].
Proof.
  apply (proj1 (parse_index_rule ascii_db)
           (u "us+ru(phonetic):2+fr:3") []).
  reflexivity.
Defined.

(** C6 as stated fails: the suffix ":0" gives the index -1. *)
Lemma parse_negative_index :
  parse ascii_db (u "us:0") [] = inr [mkSymbolData (u "us") None (-1)]
  ∧ ∃ (raw : str) (ignored : list str) (l : list SymbolData),
      parse ascii_db raw ignored = inr l
      ∧ ¬ Forall (fun r => 0 ≤ index r) l.
Proof.
  split; [reflexivity|].
  exists (u "us:0"), [], [mkSymbolData (u "us") None (-1)].
  split; [reflexivity|].
  intros H. inversion H as [|? ? H0 _]; subst. simpl in H0. lia.
Qed.

(** C6 as amended, at an input. *)
Lemma parse_index_lower_bound_witness :
  Forall2
    (fun tok r =>
       -1 ≤ index r
       ∧ (index r = -1 ↔
          ∃ sym ovar ds,
            token_shape ascii_db tok sym ovar (Some ds) ∧ int ascii_db ds = 0))
    (retained ascii_db (u "us:0+ru(phonetic):2") [])
    [mkSymbolData (u "us") None (-1);
     mkSymbolData (u "ru") (Some (u "phonetic")) 1].
Proof.
  apply (parse_index_lower_bound ascii_db (u "us:0+ru(phonetic):2") []).
  reflexivity.
Defined.

(** C7, at an input. *)
Lemma parse_ignores_non_symbols_witness :
  (∀ r, r ∈ [mkSymbolData (u "us") None 0;
             mkSymbolData (u "ru") (Some (u "phonetic")) 1] →
        symbol r ∉ [u "pc"; u "inet"])
  ∧ ∃ all,
      parsed_as ascii_db 0 (split 43 (u "pc+inet+us+ru(phonetic):2")) all
      ∧ [mkSymbolData (u "us") None 0;
         mkSymbolData (u "ru") (Some (u "phonetic")) 1]
        = filter (fun r => symbol r ∉ [u "pc"; u "inet"]) all.
Proof.
  apply (proj1 (parse_ignores_non_symbols ascii_db)
           (u "pc+inet+us+ru(phonetic):2") [u "pc"; u "inet"]).
  reflexivity.
Defined.

(** C8, at an input. *)
Lemma parse_rejects_malformed_witness :
  ∃ good bad rest,
    split 43 (u "us+ru)(bad+fr") = good ++ bad :: rest
    ∧ Forall (matches_grammar ascii_db) good
    ∧ ¬ matches_grammar ascii_db bad
    ∧ parse ascii_db (u "us+ru)(bad+fr") [u "ru"]
      = inl (X11Error (malformed bad))
    ∧ ParseError (X11Error (malformed bad)).
Proof.
  apply (proj1 (proj2 (parse_rejects_malformed ascii_db))
           (u "us+ru)(bad+fr") [u "ru"] (u "ru)(bad")).
  - apply list_elem_of_lookup. by exists 1%nat.
  - intros H%scan_grammar. by destruct H.
Defined.

(** ** The session *)

Ltac run_M :=
  unfold mbind, M_bind, mret, M_ret, raise, result; simpl.

Section SessionTheory.
Context (K : xkb_h).

(** What [close_display] does, in every state of an instance without
    an attribute [display]: it releases the description when one is
    held and nothing else. *)
Lemma close_display_eq st :
  self st !! "display" = None →
  close_display K st
  = (inr (),
     match self st !! "_keyboard_description" with
     | Some kd =>
         if truthy kd
         then mkState (delete "_keyboard_description" (self st))
                (log st ++ release_calls K kd)
                (released_memory kd (memory st))
         else st
     | None => st
     end).
Proof.
  intros Hd. destruct st as [slf lg mem]. simpl in *.
  unfold close_display, has_and_truthy, hasattr, getattr, delattr.
  unfold X_XkbFreeNames, X_XkbFreeControls, X_XkbFreeClientMap, emit,
    alter_memory.
  run_M.
  destruct (slf !! "_keyboard_description") as [kd|] eqn:Ekd; simpl.
  - rewrite Ekd. destruct (truthy kd); simpl.
    + repeat (rewrite Ekd; simpl). rewrite lookup_delete_ne by done. rewrite Hd.
      simpl. unfold release_calls. by rewrite <- !app_assoc.
    + by rewrite Hd.
  - by rewrite Hd.
Qed.

Lemma close_display_never_raises st :
  self st !! "display" = None → (close_display K st).1 = inr ().
Proof. intros H. by rewrite close_display_eq. Qed.

(** After [close_display] no description is held. *)
Lemma close_display_releases_description st :
  self st !! "display" = None →
  held "_keyboard_description" (close_display K st).2 = false.
Proof.
  intros H. rewrite close_display_eq by done. unfold held. simpl.
  destruct (self st !! "_keyboard_description") as [kd|] eqn:E.
  - destruct (truthy kd) eqn:Et; simpl.
    + by rewrite lookup_delete_eq.
    + by rewrite E.
  - by rewrite E.
Qed.

(** A second [close_display] in a row makes no call and changes
    nothing. *)
Lemma close_display_idempotent st :
  self st !! "display" = None →
  close_display K (close_display K st).2
  = (inr (), (close_display K st).2).
Proof.
  intros H.
  pose proof (close_display_releases_description st H) as Hrel.
  rewrite (close_display_eq st H) in *. simpl in *.
  set (st1 := match self st !! "_keyboard_description" with
              | Some kd => if truthy kd then _ else st
              | None => st
              end) in *.
  assert (self st1 !! "display" = None) as H1.
  { subst st1. destruct (self st !! "_keyboard_description") as [kd|];
      [destruct (truthy kd)|]; simpl; try done.
    by rewrite lookup_delete_ne. }
  rewrite (close_display_eq st1 H1). f_equal.
  unfold held in Hrel.
  destruct (self st1 !! "_keyboard_description") as [kd|]; [|done].
  by rewrite Hrel.
Qed.

(** But it never releases the connection. *)
Lemma close_display_undisturbed st : undisturbed st (close_display K st).2.
Proof.
  intros H. rewrite close_display_eq by done. simpl.
  destruct (self st !! "_keyboard_description") as [kd|];
    [destruct (truthy kd)|]; simpl.
  - rewrite !lookup_delete_ne by done. split; [done|]. split; [done|].
    exists (release_calls K kd). split; [done|].
    intros d Hin. unfold release_calls in Hin.
    by repeat (apply elem_of_cons in Hin as [?|Hin]; [done|]);
      apply elem_of_nil in Hin.
  - split; [done|]. split; [done|]. exists []. rewrite app_nil_r.
    split; [done|]. intros d Hin. by apply elem_of_nil in Hin.
  - split; [done|]. split; [done|]. exists []. rewrite app_nil_r.
    split; [done|]. intros d Hin. by apply elem_of_nil in Hin.
Qed.

Lemma close_display_keeps_connection st :
  self st !! "display" = None →
  held "_display" (close_display K st).2 = held "_display" st.
Proof.
  intros H. destruct (close_display_undisturbed st H) as (_ & Hd & _).
  unfold held. by rewrite Hd.
Qed.

(** *** Nothing but [close_display] could release the connection *)

Lemma undisturbed_refl st : undisturbed st st.
Proof.
  intros H. split; [done|]. split; [done|]. exists [].
  rewrite app_nil_r. split; [done|]. intros d Hin. by apply elem_of_nil in Hin.
Qed.

Lemma undisturbed_trans st1 st2 st3 :
  undisturbed st1 st2 → undisturbed st2 st3 → undisturbed st1 st3.
Proof.
  intros H12 H23 H1. destruct (H12 H1) as (H2 & Hd2 & l & Hl & Hnc).
  destruct (H23 H2) as (H3 & Hd3 & l' & Hl' & Hnc').
  split; [done|]. split; [congruence|]. exists (l ++ l').
  split; [by rewrite Hl', Hl, app_assoc|].
  intros d [Hin|Hin]%elem_of_app; [by eapply Hnc | by eapply Hnc'].
Qed.

Lemma undisturbed_call st c :
  (∀ d, c ≠ C_XCloseDisplay d) →
  undisturbed st (mkState (self st) (log st ++ [c]) (memory st)).
Proof.
  intros Hc H. split; [done|]. split; [done|]. exists [c]. split; [done|].
  intros d Hin. apply list_elem_of_singleton in Hin. by eapply Hc.
Qed.

Lemma steady_ret {A} (x : A) : steady (mret x).
Proof. intros st. apply undisturbed_refl. Qed.

Lemma steady_raise {A} e : steady (raise (A := A) e).
Proof. intros st. apply undisturbed_refl. Qed.

Lemma steady_result {A} (r : exn + A) : steady (result r).
Proof. intros st. apply undisturbed_refl. Qed.

Lemma steady_bind {A B} (c : M A) (f : A → M B) :
  steady c → (∀ x, steady (f x)) → steady (c ≫= f).
Proof.
  intros Hc Hf st. specialize (Hc st). unfold mbind, M_bind.
  destruct (c st) as [[e|x] st']; simpl in *; [done|].
  eapply undisturbed_trans; [exact Hc | apply Hf].
Qed.

Lemma steady_hasattr name : steady (hasattr name).
Proof. intros st. apply undisturbed_refl. Qed.

Lemma steady_getattr name : steady (getattr name).
Proof.
  intros st. unfold getattr. destruct (self st !! name);
    apply undisturbed_refl.
Qed.

Lemma steady_contents p : steady (contents p).
Proof.
  intros st. unfold contents. destruct (memory st !! p);
    apply undisturbed_refl.
Qed.

Lemma steady_setattr name p :
  name ≠ "display" → name ≠ "_display" → steady (setattr name p).
Proof.
  intros H1 H2 st H. simpl. rewrite !lookup_insert_ne by done.
  split; [done|]. split; [done|]. exists []. rewrite app_nil_r.
  split; [done|]. intros d Hin. by apply elem_of_nil in Hin.
Qed.

Lemma steady_emit c : (∀ d, c ≠ C_XCloseDisplay d) → steady (emit c).
Proof. intros Hc st. by apply undisturbed_call. Qed.

Lemma steady_alter_memory f p : steady (alter_memory f p).
Proof. intros st H. by apply (undisturbed_refl st). Qed.

Lemma steady_allocate p d : steady (allocate p d).
Proof. intros st H. by apply (undisturbed_refl st). Qed.

Lemma steady_close_display : steady (close_display K).
Proof. intros st. apply close_display_undisturbed. Qed.

Lemma steady_subscript table status : steady (subscript table status).
Proof.
  unfold subscript. destruct (table !! status);
    [apply steady_ret | apply steady_raise].
Qed.

Create HintDb steady.
#[local] Hint Resolve steady_ret steady_raise steady_result steady_hasattr
  steady_getattr steady_contents steady_alter_memory steady_allocate
  steady_close_display steady_subscript : steady.

Ltac steady_step :=
  first
    [ solve [auto with steady]
    | apply steady_emit; done
    | apply steady_setattr; done
    | apply steady_bind; [|intros]
    | match goal with
      | |- steady (match ?x with _ => _ end) => destruct x
      | |- steady (let '(_, _) := ?x in _) => destruct x
      end ].

Section WithServer.
Context (srv : XServer).

Lemma steady_X_XkbIgnoreExtension b : steady (X_XkbIgnoreExtension b).
Proof. unfold X_XkbIgnoreExtension. repeat steady_step. Qed.

Lemma steady_X_XkbGetMap dpy which device :
  steady (X_XkbGetMap srv dpy which device).
Proof. unfold X_XkbGetMap. repeat steady_step. Qed.

Lemma steady_X_XkbGetControls dpy which xkb :
  steady (X_XkbGetControls K srv dpy which xkb).
Proof. unfold X_XkbGetControls. repeat steady_step. Qed.

Lemma steady_X_XkbGetNames dpy which xkb :
  steady (X_XkbGetNames K srv dpy which xkb).
Proof. unfold X_XkbGetNames. repeat steady_step. Qed.

Lemma steady_X_XkbLockGroup dpy device v :
  steady (X_XkbLockGroup srv dpy device v).
Proof. unfold X_XkbLockGroup. repeat steady_step. Qed.

Lemma steady_X_XFlush dpy : steady (X_XFlush dpy).
Proof. unfold X_XFlush. repeat steady_step. Qed.

#[local] Hint Resolve steady_X_XkbIgnoreExtension steady_X_XkbGetMap
  steady_X_XkbGetControls steady_X_XkbGetNames steady_X_XkbLockGroup
  steady_X_XFlush : steady.

Lemma steady_after_connect reason : steady (after_connect K srv reason).
Proof. unfold after_connect. repeat steady_step. Qed.

Lemma steady_group_num_setter v : steady (group_num_setter K srv v).
Proof. unfold group_num_setter. repeat steady_step. Qed.

Lemma open_display_unfold :
  open_display K srv
  = (close_display K;;
     X_XkbIgnoreExtension false;;
     '(dpy, reason) ← X_XkbOpenDisplay srv (XkbMajorVersion K)
                        (XkbMinorVersion K);
     setattr "_display" dpy;;
     after_connect K srv reason).
Proof. reflexivity. Qed.

Lemma bind_eq {A B} (c : M A) (f : A → M B) st x st' :
  c st = (inr x, st') → (c ≫= f) st = f x st'.
Proof. unfold mbind, M_bind. by intros ->. Qed.

(** X3. Whatever the server answers, [open_display] makes no call of
    [XCloseDisplay], and when it returns or raises, [self._display]
    is the pointer [XkbOpenDisplay] gave. *)
Lemma open_display_connection st :
  self st !! "display" = None →
  ∃ l, log (open_display K srv st).2 = log st ++ l
       ∧ (∀ d, C_XCloseDisplay d ∉ l)
       ∧ self (open_display K srv st).2 !! "_display"
         = Some (open_display_reply srv
                   (log (close_display K st).2
                    ++ [C_XkbIgnoreExtension false;
                        C_XkbOpenDisplay (XkbMajorVersion K)
                          (XkbMinorVersion K)])).1.
Proof.
  intros H. rewrite open_display_unfold.
  pose proof (close_display_undisturbed st H) as (H0 & Hd0 & l0 & Hl0 & Hn0).
  destruct (close_display K st) as [r st0] eqn:E0.
  assert (r = inr ()) as ->.
  { pose proof (close_display_never_raises st H) as Hr.
    by rewrite E0 in Hr. }
  rewrite (bind_eq _ _ _ _ _ E0). simpl in *.
  set (l1 := log st0 ++ [C_XkbIgnoreExtension false]).
  set (l2 := l1 ++ [C_XkbOpenDisplay (XkbMajorVersion K) (XkbMinorVersion K)]).
  assert (log st0
          ++ [C_XkbIgnoreExtension false;
              C_XkbOpenDisplay (XkbMajorVersion K) (XkbMinorVersion K)]
          = l2) as -> by (subst l2 l1; by rewrite <- app_assoc).
  rewrite (bind_eq _ _ st0 () (mkState (self st0) l1 (memory st0)))
    by done.
  rewrite (bind_eq _ _ _ (open_display_reply srv l2)
             (mkState (self st0) l2 (memory st0))) by done.
  destruct (open_display_reply srv l2) as [dpy reason]. simpl.
  set (st3 := mkState (<["_display" := dpy]> (self st0)) l2 (memory st0)).
  rewrite (bind_eq _ _ _ () st3) by done.
  destruct (steady_after_connect reason st3) as (_ & Hd & l & Hl & Hn).
  { subst st3. simpl. by rewrite lookup_insert_ne. }
  exists (l0 ++ [C_XkbIgnoreExtension false;
                 C_XkbOpenDisplay (XkbMajorVersion K) (XkbMinorVersion K)]
          ++ l).
  split; [|split].
  - rewrite Hl. subst st3 l2 l1. simpl. rewrite Hl0.
    by rewrite <- !app_assoc.
  - intros d [Hin|Hin]%elem_of_app; [by eapply Hn0|].
    apply elem_of_cons in Hin as [?|Hin]; [done|].
    apply elem_of_cons in Hin as [?|Hin]; [done|]. by eapply Hn.
  - rewrite Hd. subst st3. simpl. by rewrite lookup_insert_eq.
Qed.

(** X2. The setter when the server takes the lock: after
    [XkbLockGroup] the request is flushed with [XFlush] before the
    setter returns, without error, and the instance is untouched. *)
Lemma group_num_setter_accepted st dpy v :
  self st !! "_display" = Some dpy →
  lock_group_reply srv
    (log st ++ [C_XkbLockGroup dpy (XkbUseCoreKbd K) v]) = true →
  group_num_setter K srv v st
  = (inr (),
     mkState (self st)
       (log st ++ [C_XkbLockGroup dpy (XkbUseCoreKbd K) v; C_XFlush dpy])
       (memory st)).
Proof.
  intros Hd Hok. unfold group_num_setter, getattr, X_XkbLockGroup,
    X_XFlush, emit. run_M. rewrite Hd. simpl. rewrite Hok. simpl.
  rewrite Hd. simpl. by rewrite <- app_assoc.
Qed.

(** The setter when the server refuses: it raises, the description
    is released, and the connection is as it was. *)
Lemma group_num_setter_rejected st dpy v :
  self st !! "display" = None →
  self st !! "_display" = Some dpy →
  lock_group_reply srv
    (log st ++ [C_XkbLockGroup dpy (XkbUseCoreKbd K) v]) = false →
  (group_num_setter K srv v st).1
    = inl (X11Error (u "Failed to set group number."))
  ∧ held "_keyboard_description" (group_num_setter K srv v st).2 = false
  ∧ held "_display" (group_num_setter K srv v st).2 = truthy dpy
  ∧ ∀ d, C_XCloseDisplay d ∈ log (group_num_setter K srv v st).2 →
         C_XCloseDisplay d ∈ log st.
Proof.
  intros H Hd Hno.
  set (st1 := mkState (self st)
                (log st ++ [C_XkbLockGroup dpy (XkbUseCoreKbd K) v])
                (memory st)).
  assert (group_num_setter K srv v st
          = (inl (X11Error (u "Failed to set group number.")),
             (close_display K st1).2)) as ->.
  { unfold group_num_setter.
    rewrite (bind_eq _ _ st dpy st) by (unfold getattr; by rewrite Hd).
    rewrite (bind_eq _ _ st false st1)
      by (unfold X_XkbLockGroup, emit; run_M; by rewrite Hno).
    unfold mbind, M_bind.
    rewrite (close_display_eq st1 H). done. }
  simpl. split; [done|]. split; [by apply close_display_releases_description|].
  split.
  - rewrite close_display_keeps_connection by done.
    unfold held. subst st1. simpl. by rewrite Hd.
  - destruct (close_display_undisturbed st1 H) as (_ & _ & l & -> & Hn).
    intros d [Hin|Hin]%elem_of_app; [|by destruct (Hn d)].
    subst st1. simpl in Hin.
    apply elem_of_app in Hin as [?|Hin]; [done|].
    by apply list_elem_of_singleton in Hin.
Qed.

End WithServer.

(** *** [groups_count] *)

Lemma count_groups_spec (slots : list N) remaining gc :
  (gc + remaining ≤ length slots)%nat →
  ∃ n : nat,
    count_groups K remaining slots gc = inr (Z.of_nat n)
    ∧ (gc ≤ n ≤ gc + remaining)%nat
    ∧ (∀ i a, (gc ≤ i < n)%nat → slots !! i = Some a → a ≠ None_ K)
    ∧ ((n < gc + remaining)%nat → slots !! n = Some (None_ K)).
Proof.
  revert gc. induction remaining as [|remaining IH]; intros gc Hlen; simpl.
  - exists gc. split; [done|]. split; [lia|]. split; intros; lia.
  - destruct (slots !! gc) as [a|] eqn:Ea.
    2:{ apply lookup_ge_None in Ea. lia. }
    case_bool_decide as Hne.
    + destruct (IH (S gc)) as (n & -> & Hn & Hlead & Hstop); [lia|].
      exists n. split; [done|]. split; [lia|]. split.
      * intros i b Hi Hb. destruct (decide (i = gc)) as [->|].
        -- congruence.
        -- apply (Hlead i b); [lia | done].
      * intros ?. apply Hstop. lia.
    + exists gc. split; [done|]. split; [lia|]. split; [intros; lia|].
      intros _. rewrite Ea. f_equal.
      by destruct (decide (a = None_ K)).
Qed.

End SessionTheory.


(** ** The properties of the session *)

(** With a description held, [groups_count] is the [num_groups] of the
    controls block when the pointer to it is not NULL, and raises
    [ValueError] when it is: the test [is not None] holds of every
    pointer, so the scan of the group names is never reached. The state
    is not changed. *)
Lemma groups_count_controls (K : xkb_h) (st : state) (kd : N)
    (desc : XkbDescRec) (c : XkbControlsRec) :
  self st !! "_keyboard_description" = Some kd →
  memory st !! kd = Some desc →
  ctrls desc = Some c →
  groups_count K st = (inr (num_groups c), st).
Proof.
  intros Hkd Hdesc Hc.
  unfold groups_count, is_not_None, pointer_contents, getattr, contents.
  run_M. rewrite Hkd. simpl. rewrite Hdesc. simpl.
  rewrite Hkd. simpl. rewrite Hdesc. simpl. by rewrite Hc.
Qed.

Lemma groups_count_null_controls (K : xkb_h) (st : state) (kd : N)
    (desc : XkbDescRec) :
  self st !! "_keyboard_description" = Some kd →
  memory st !! kd = Some desc →
  ctrls desc = None →
  groups_count K st = (inl (ValueError (u "NULL pointer access")), st).
Proof.
  intros Hkd Hdesc Hc.
  unfold groups_count, is_not_None, pointer_contents, getattr, contents.
  run_M. rewrite Hkd. simpl. rewrite Hdesc. simpl.
  rewrite Hkd. simpl. rewrite Hdesc. simpl. by rewrite Hc.
Qed.


(** C1, at a failing input. The controls fetch of [open_display] fails
    on the fresh instance: the error is raised and the description is
    released, but [XCloseDisplay] is not called and [self._display]
    still is the live connection 7; the session is not closed. The same
    when the description cannot be fetched. *)
Theorem open_display_failure_keeps_connection :
  failed_at_controls.1 = inl (X11Error (u "Unable to allocate storage."))
  ∧ log failed_at_controls.2
    = [C_XkbIgnoreExtension false; C_XkbOpenDisplay 1 0; C_XkbGetMap 7 0 256;
       C_XkbGetControls 7 4160757759 9; C_XkbFreeNames 9 4100 true;
       C_XkbFreeControls 9 4160757759 true; C_XkbFreeClientMap 9 0 true]
  ∧ self failed_at_controls.2 !! "_display" = Some 7%N
  ∧ ¬ closed failed_at_controls.2
  ∧ failed_at_map.1
    = inl (X11Error (u "Failed to get keyboard description."))
  ∧ log failed_at_map.2
    = [C_XkbIgnoreExtension false; C_XkbOpenDisplay 1 0; C_XkbGetMap 7 0 256]
  ∧ self failed_at_map.2 !! "_display" = Some 7%N
  ∧ ¬ closed failed_at_map.2.
Proof.
  repeat split; try reflexivity; by intros [_ H].
Qed.

(** C2, at a failing input. After [open_display] and [close_display] on
    the fresh instance the description is gone and the connection is
    still held; after an [open_display] that could not fetch the
    description, the same. *)
Theorem close_display_keeps_connection_held :
  held "_keyboard_description" opened = true
  ∧ held "_display" opened = true
  ∧ held "_keyboard_description" opened_then_closed = false
  ∧ held "_display" opened_then_closed = true
  ∧ held "_keyboard_description" failed_at_map.2 = false
  ∧ held "_display" failed_at_map.2 = true.
Proof. repeat split; reflexivity. Qed.

(** C3, at a failing input. [close_display] on the open session returns
    without error after the three calls that release the description:
    it does not call [XCloseDisplay] and does not delete
    [self._display]. *)
Theorem close_display_skips_XCloseDisplay :
  (close_display X11_headers opened).1 = inr ()
  ∧ log opened_then_closed = log opened ++ release_calls X11_headers 9
  ∧ (C_XCloseDisplay 7 ∉ log opened_then_closed)
  ∧ self opened !! "_display" = Some 7%N
  ∧ self opened_then_closed !! "_display" = Some 7%N.
Proof.
  repeat split; try reflexivity.
  intros H. vm_compute in H.
  by repeat (apply elem_of_cons in H as [?|H]; [done|]);
    apply elem_of_nil in H.
Qed.

(** C10, at a failing input. The server refuses the lock on an open
    session: the setter raises and releases the description, but the
    connection 7 is neither closed nor dropped from the instance. *)
Theorem group_num_setter_rejection_keeps_connection :
  rejected_lock.1 = inl (X11Error (u "Failed to set group number."))
  ∧ log rejected_lock.2
    = [C_XkbIgnoreExtension false; C_XkbOpenDisplay 1 0; C_XkbGetMap 7 0 256;
       C_XkbGetControls 7 4160757759 9; C_XkbGetNames 7 4100 9;
       C_XkbLockGroup 7 256 1; C_XkbFreeNames 9 4100 true;
       C_XkbFreeControls 9 4160757759 true; C_XkbFreeClientMap 9 0 true]
  ∧ held "_keyboard_description" rejected_lock.2 = false
  ∧ held "_display" rejected_lock.2 = true
  ∧ ¬ closed rejected_lock.2.
Proof.
  repeat split; try reflexivity; by intros [_ H].
Qed.

(** X1. On an instance without an attribute [display], [close_display]
    never raises, and a second [close_display] in a row makes no Xlib
    call and changes nothing. *)
Theorem close_display_twice (K : xkb_h) (st : state) :
  self st !! "display" = None →
  (close_display K st).1 = inr ()
  ∧ close_display K (close_display K st).2
    = (inr (), (close_display K st).2).
Proof.
  intros H. split;
    [by apply close_display_never_raises | by apply close_display_idempotent].
Qed.

(** X1, on the open session. *)
Lemma close_display_twice_witness :
  (close_display X11_headers opened).1 = inr ()
  ∧ close_display X11_headers (close_display X11_headers opened).2
    = (inr (), (close_display X11_headers opened).2).
Proof. apply (close_display_twice X11_headers opened). reflexivity. Defined.

(** X2, on the open session. *)
Lemma group_num_setter_accepted_witness :
  group_num_setter X11_headers srv_ok 1 opened
  = (inr (),
     mkState (self opened)
       (log opened ++ [C_XkbLockGroup 7 256 1; C_XFlush 7])
       (memory opened)).
Proof.
  apply (group_num_setter_accepted X11_headers srv_ok opened 7%N 1);
    reflexivity.
Defined.

(** X3, on the fresh instance. *)
Lemma open_display_connection_witness :
  ∃ l, log (open_display X11_headers srv_ok fresh).2 = log fresh ++ l
       ∧ (∀ d, C_XCloseDisplay d ∉ l)
       ∧ self (open_display X11_headers srv_ok fresh).2 !! "_display"
         = Some (open_display_reply srv_ok
                   (log (close_display X11_headers fresh).2
                    ++ [C_XkbIgnoreExtension false;
                        C_XkbOpenDisplay (XkbMajorVersion X11_headers)
                          (XkbMinorVersion X11_headers)])).1.
Proof. apply (open_display_connection X11_headers srv_ok fresh). reflexivity. Defined.

(** X4. The records of a successful parse have pairwise distinct
    indices. *)
Theorem parse_indices_distinct (U : UnicodeDB) (raw : str)
    (ignored : list str) (l : list SymbolData) :
  parse U raw ignored = inr l → NoDup (map index l).
Proof.
  intros H. by apply _parse_symbols_ok in H as (all & _ & _ & Hnd).
Qed.

(** X4, at an input. *)
Lemma parse_indices_distinct_witness :
  NoDup (map index [mkSymbolData (u "us") None 0;
                    mkSymbolData (u "ru") None 1]).
Proof.
  apply (parse_indices_distinct ascii_db (u "pc+us:1+ru:2") [u "pc"]).
  reflexivity.
Defined.

(** ** The older [fullmatch] *)

Section CompatTheory.
Context (U : UnicodeDB).

Local Abbreviation OptIndex :=
  (Opt (Cat (Chr 58) (Named "index" (Plus (is_digit U))))).
Local Abbreviation OptVariant :=
  (Opt (Cat (Chr 40) (Cat (Named "variant" (Plus (is_word U))) (Chr 41)))).

(** When the rest of the pattern cannot fail, the greedy run is the
    whole span. *)
Lemma plus_greedy_total {A} cls s (k : str → option A) :
  (∀ t, is_Some (k t)) →
  plus_greedy cls s k
  = match span cls s with (_ :: _, r) => k r | ([], _) => None end.
Proof.
  intros Hk. induction s as [|c s IH]; simpl; [done|].
  destruct (cls c) eqn:Ec; [|done].
  rewrite IH. destruct (span cls s) as [[|c' w] r] eqn:E.
  - apply span_app in E as ->. done.
  - by destruct (Hk r) as [x ->].
Qed.

Lemma run_named_plus_total name cls s m k :
  (∀ t m', is_Some (k t m')) →
  run (Named name (Plus cls)) s m k
  = match span cls s with
    | ((_ :: _) as w, r) => k r (<[name := w]> m)
    | ([], _) => None
    end.
Proof.
  intros Hk. cbn [run]. rewrite plus_greedy_total by (intros; by apply Hk).
  destruct (span cls s) as [[|c w] r] eqn:E; [done|].
  apply span_app in E as ->. by rewrite consumed_app.
Qed.

Lemma run_index_prefix r m k :
  (∀ t m', is_Some (k t m')) →
  run OptIndex r m k
  = k (prefix_index U r).2 (set_group "index" (prefix_index U r).1 m).
Proof.
  intros Hk. rewrite run_opt, run_cat, run_chr.
  destruct r as [|c r]; [done|]. cbn [prefix_index].
  destruct (N.eqb c 58); [|done].
  rewrite run_named_plus_total by done.
  destruct (span (is_digit U) r) as [[|d ds] rest]; [done|]. simpl.
  by destruct (Hk rest (<["index" := d :: ds]> m)) as [x ->].
Qed.

Lemma run_tail_prefix r m k :
  (∀ t m', is_Some (k t m')) →
  run (Cat OptVariant OptIndex) r m k
  = k (prefix_tail U r).2
      (set_group "index" (prefix_tail U r).1.2
         (set_group "variant" (prefix_tail U r).1.1 m)).
Proof.
  intros Hk. rewrite run_cat, run_opt, run_cat, run_chr.
  rewrite (run_index_prefix r m k Hk).
  destruct r as [|c r1]; [done|]. cbn [prefix_tail].
  destruct (N.eqb_spec c 40) as [->|Hc]; [|done].
  rewrite run_cat, run_named_plus.
  2:{ intros c t m' Hw. rewrite run_chr. by rewrite (word_is_not U c 41). }
  destruct (span (is_word U) r1) as [[|v vs] [|x r3]]; try done.
  rewrite run_chr. destruct (N.eqb x 41); [|done].
  rewrite run_index_prefix by done. simpl.
  by destruct (Hk (prefix_index U r3).2
                 (set_group "index" (prefix_index U r3).1
                    (<["variant" := v :: vs]> m))) as [y ->].
Qed.

Lemma scan_index_prefix r :
  scan_index U r
  = match prefix_index U r with (oi, []) => Some oi | _ => None end.
Proof.
  destruct r as [|c r]; [done|]. simpl.
  destruct (N.eqb c 58); [|done].
  by destruct (span (is_digit U) r) as [[|d ds] [|x rest]].
Qed.

Lemma scan_tail_prefix r :
  scan_tail U r
  = match prefix_tail U r with (ov, oi, []) => Some (ov, oi) | _ => None end.
Proof.
  assert (∀ r', (oi ← scan_index U r'; Some (@None str, oi))
                = match prefix_index U r' with
                  | (oi, []) => Some (None, oi)
                  | _ => None
                  end) as Hskip.
  { intros r'. rewrite scan_index_prefix.
    by destruct (prefix_index U r') as [oi [|x rest]]. }
  destruct r as [|c r1]; [done|]. cbn [scan_tail prefix_tail].
  destruct (N.eqb c 40) eqn:Ec.
  - destruct (span (is_word U) r1) as [[|v vs] [|x r3]] eqn:E.
    + cbn [fst snd]. cbn [prefix_index].
      destruct (N.eqb_spec c 40) as [->|]; [|done]. done.
    + cbn [fst snd]. cbn [prefix_index].
      destruct (N.eqb_spec c 40) as [->|]; [|done]. done.
    + cbn [fst snd]. cbn [prefix_index].
      destruct (N.eqb_spec c 40) as [->|]; [|done]. done.
    + destruct (N.eqb x 41).
      * rewrite scan_index_prefix. cbn [fst snd].
        by destruct (prefix_index U r3) as [oi [|y rest]].
      * cbn [fst snd]. cbn [prefix_index].
        destruct (N.eqb_spec c 40) as [->|]; [|done]. done.
  - rewrite Hskip. cbn [fst snd].
    by destruct (prefix_index U (c :: r1)) as [oi [|y rest]].
Qed.

Lemma groups_of_no_whole sym ov oi : groups_of sym ov oi !! "0" = None.
Proof. unfold groups_of. by destruct ov, oi. Qed.

(** X5. On every token, the [fullmatch] the module substitutes before
    Python 3.4 (a match from the start whose span must be the whole
    string) accepts exactly when [SYMBOL_REGEX.fullmatch] does and finds
    the same named groups. *)
Theorem compat_fullmatch_agrees (tok : str) :
  delete "0" <$> compat_fullmatch (SYMBOL_REGEX U) tok
  = fullmatch (SYMBOL_REGEX U) tok.
Proof.
  rewrite fullmatch_scan. unfold compat_fullmatch, re_match, scan.
  change (run (Named "0" (SYMBOL_REGEX U)) tok ∅ (fun _ m => Some m))
    with (run (SYMBOL_REGEX U) tok ∅
            (fun s' m' => Some (<["0" := consumed tok s']> m'))).
  unfold SYMBOL_REGEX. rewrite run_cat.
  rewrite run_named_plus_total.
  2:{ intros t m'. rewrite run_tail_prefix; eauto. }
  destruct (span (is_word U) tok) as [[|c w] r] eqn:E; [done|].
  rewrite run_tail_prefix by eauto. rewrite scan_tail_prefix.
  apply span_app in E as ->.
  destruct (prefix_tail U r) as [[ov oi] rest]. cbn [fst snd].
  unfold match_span. rewrite lookup_insert_eq. cbn [default].
  unfold consumed, id. rewrite length_take.
  destruct rest as [|x rest].
  - cbn [length]. rewrite Nat.sub_0_r, firstn_all, Nat.min_id.
    rewrite bool_decide_eq_false_2 by (intros H; by apply H).
    cbn [fmap option_fmap option_map mbind option_bind]. f_equal.
    rewrite delete_insert_eq. apply delete_id.
    apply (groups_of_no_whole (c :: w) ov oi).
  - rewrite bool_decide_eq_true_2; [done|].
    intros [= H]. rewrite length_app in H. simpl in H. lia.
Qed.

End CompatTheory.

(** ** The outcomes of [open_display] *)

Section OpenTheory.
Context (K : xkb_h) (srv : XServer).

Lemma open_display_connected st :
  self st !! "display" = None →
  open_display K srv st
  = after_connect K srv (open_display_reply srv (connect_log K st)).2
      (connected K srv st).
Proof.
  intros H. rewrite open_display_unfold.
  destruct (close_display K st) as [r st0] eqn:E0.
  assert (r = inr ()) as ->.
  { pose proof (close_display_never_raises K st H) as Hr.
    by rewrite E0 in Hr. }
  rewrite (bind_eq _ _ _ _ _ E0).
  unfold connected, connection, connect_log. rewrite E0. simpl.
  unfold X_XkbIgnoreExtension, X_XkbOpenDisplay, emit, setattr. run_M.
  rewrite <- app_assoc. simpl.
  by destruct (open_display_reply srv _) as [dpy reason].
Qed.

Lemma connected_no_display st :
  self st !! "display" = None →
  self (connected K srv st) !! "display" = None.
Proof.
  intros H. unfold connected. simpl. rewrite lookup_insert_ne by done.
  by destruct (close_display_undisturbed K st H) as (H0 & _).
Qed.

(** X6. When [XkbOpenDisplay] gives one of the four reasons of
    [OPEN_DISPLAY_ERRORS], [open_display] raises [X11Error] with that
    text and a full stop, having assigned [self._display] and made no
    further Xlib call. *)
Theorem open_display_connect_rejected (st : state) (msg : str) :
  self st !! "display" = None →
  OPEN_DISPLAY_ERRORS K !! (open_display_reply srv (connect_log K st)).2
    = Some msg →
  open_display K srv st
  = (inl (X11Error (msg ++ u ".")), connected K srv st).
Proof.
  intros H Hmsg. rewrite open_display_connected by done.
  unfold after_connect. run_M. by rewrite Hmsg.
Qed.

Lemma truthy_true p : p ≠ NULL → truthy p = true.
Proof.
  intros H. unfold truthy. by destruct (N.eqb_spec p NULL).
Qed.

(** X7. When the connection attempt is not refused, the description
    is not NULL and both fetches return [Success], [open_display]
    returns with the connection and the description assigned, after
    exactly the five calls of the handshake, and [groups_count] then is
    the [num_groups] that the controls fetch stored. *)
Theorem open_display_succeeds (st : state) (c : XkbControlsRec)
    (n : XkbNamesRec) :
  self st !! "display" = None →
  OPEN_DISPLAY_ERRORS K !! (open_display_reply srv (connect_log K st)).2
    = None →
  description K srv st ≠ NULL →
  get_controls_reply srv (controls_log K srv st) = (Success K, c) →
  get_names_reply srv (names_log K srv st) = (Success K, n) →
  open_display K srv st
  = (inr (),
     described K srv st (names_log K srv st)
       {| ctrls := Some c; names := Some n |})
  ∧ groups_count K
      (described K srv st (names_log K srv st)
         {| ctrls := Some c; names := Some n |})
    = (inr (num_groups c),
       described K srv st (names_log K srv st)
         {| ctrls := Some c; names := Some n |}).
Proof.
  intros H Hreason Hkd%truthy_true Hc Hn. split.
  - rewrite open_display_connected by done.
    unfold after_connect. rewrite Hreason.
    unfold described, names_log, controls_log, description, map_log in *.
    unfold getattr, setattr, X_XkbGetMap, X_XkbGetControls, X_XkbGetNames,
      emit, allocate, alter_memory. run_M.
    repeat first
      [ rewrite Hkd | rewrite Hc | rewrite Hn
      | rewrite lookup_insert_eq
      | rewrite lookup_insert_ne by done
      | rewrite bool_decide_eq_true_2 by done
      | rewrite bool_decide_eq_false_2 by (intros Hne; by apply Hne)
      | progress simpl ].
    by rewrite !alter_insert_eq.
  - apply (groups_count_controls K _ (description K srv st)
             {| ctrls := Some c; names := Some n |} c);
      unfold described; simpl; [|apply lookup_insert_eq | done].
    apply lookup_insert_eq.
Qed.

Ltac fetch_steps Hkd Hc Hn H0 :=
  repeat first
    [ rewrite Hkd | rewrite Hc | rewrite Hn
    | rewrite lookup_insert_eq
    | rewrite lookup_insert_ne by done
    | rewrite bool_decide_eq_true_2 by done
    | rewrite bool_decide_eq_false_2 by done
    | rewrite bool_decide_eq_false_2
        by (let Hq := fresh in intros Hq; by apply Hq)
    | rewrite close_display_eq
        by (simpl; rewrite !lookup_insert_ne by done; exact H0)
    | progress simpl ].

(** X8. When the controls fetch does not return [Success],
    [open_display] releases the description, deletes its attribute and
    raises: [X11Error] with the text of [GET_CONTROLS_ERRORS] and a full
    stop, or [KeyError] for a status that table does not have. The
    connection stays assigned and no call follows the three that
    release. *)
Theorem open_display_controls_failure (st : state) (status : Z)
    (c : XkbControlsRec) :
  self st !! "display" = None →
  OPEN_DISPLAY_ERRORS K !! (open_display_reply srv (connect_log K st)).2
    = None →
  description K srv st ≠ NULL →
  get_controls_reply srv (controls_log K srv st) = (status, c) →
  status ≠ Success K →
  open_display K srv st
  = (inl (fetch_error (GET_CONTROLS_ERRORS K) status),
     rolled_back K srv st (controls_log K srv st)
       {| ctrls := None; names := None |}).
Proof.
  intros H Hreason Hkd%truthy_true Hc Hne.
  destruct (close_display_undisturbed K st H) as (H0 & _).
  rewrite open_display_connected by done.
  unfold after_connect. rewrite Hreason.
  unfold rolled_back, connected, controls_log, description, map_log in *.
  unfold getattr, setattr, X_XkbGetMap, X_XkbGetControls, emit, allocate,
    alter_memory, subscript, fetch_error. run_M.
  fetch_steps Hkd Hc Hc H0.
  rewrite delete_insert_eq.
  by destruct (GET_CONTROLS_ERRORS K !! status).
Qed.

(** X9. When the names fetch does not return [Success], the same with
    [GET_NAMES_ERRORS], after the controls block has been stored and
    released again. *)
Theorem open_display_names_failure (st : state) (status : Z)
    (c : XkbControlsRec) (n : XkbNamesRec) :
  self st !! "display" = None →
  OPEN_DISPLAY_ERRORS K !! (open_display_reply srv (connect_log K st)).2
    = None →
  description K srv st ≠ NULL →
  get_controls_reply srv (controls_log K srv st) = (Success K, c) →
  get_names_reply srv (names_log K srv st) = (status, n) →
  status ≠ Success K →
  open_display K srv st
  = (inl (fetch_error (GET_NAMES_ERRORS K) status),
     rolled_back K srv st (names_log K srv st)
       {| ctrls := Some c; names := None |}).
Proof.
  intros H Hreason Hkd%truthy_true Hc Hn Hne.
  destruct (close_display_undisturbed K st H) as (H0 & _).
  rewrite open_display_connected by done.
  unfold after_connect. rewrite Hreason.
  unfold rolled_back, connected, names_log, controls_log, description,
    map_log in *.
  unfold getattr, setattr, X_XkbGetMap, X_XkbGetControls, X_XkbGetNames,
    emit, allocate, alter_memory, subscript, fetch_error. run_M.
  fetch_steps Hkd Hc Hn H0.
  rewrite delete_insert_eq, !alter_insert_eq. simpl.
  by destruct (GET_NAMES_ERRORS K !! status).
Qed.

(** X19. When [XkbGetMap] returns NULL, [open_display] raises
    [X11Error] right after that call: the attribute
    [_keyboard_description] is left holding NULL, the connection stays
    assigned, and nothing is released. *)
Theorem open_display_map_failure (st : state) :
  self st !! "display" = None →
  OPEN_DISPLAY_ERRORS K !! (open_display_reply srv (connect_log K st)).2
    = None →
  description K srv st = NULL →
  open_display K srv st
  = (inl (X11Error (u "Failed to get keyboard description.")),
     mkState
       (<["_keyboard_description" := NULL]> (self (connected K srv st)))
       (map_log K srv st)
       (memory (connected K srv st))).
Proof.
  intros H Hreason Hkd.
  destruct (close_display_undisturbed K st H) as (H0 & _).
  rewrite open_display_connected by done.
  unfold after_connect. rewrite Hreason.
  unfold connected, description, map_log in *.
  unfold getattr, setattr, X_XkbGetMap, emit, allocate. run_M.
  repeat first
    [ rewrite Hkd
    | rewrite lookup_insert_eq
    | rewrite lookup_insert_ne by done
    | rewrite close_display_eq
        by (simpl; rewrite !lookup_insert_ne by done; exact H0)
    | progress simpl ].
  done.
Qed.

End OpenTheory.

(** ** The queries *)

Section ReadsTheory.

Lemma reads_ret {A} (x : A) : reads (mret x).
Proof. by intros st. Qed.

Lemma reads_raise {A} e : reads (raise (A := A) e).
Proof. by intros st. Qed.

Lemma reads_result {A} (r : exn + A) : reads (result r).
Proof. by intros st. Qed.

Lemma reads_bind {A B} (c : M A) (f : A → M B) :
  reads c → (∀ x, reads (f x)) → reads (c ≫= f).
Proof.
  intros Hc Hf st. specialize (Hc st). unfold mbind, M_bind.
  destruct (c st) as [[e|x] st']; simpl in *; [done|].
  subst st'. apply Hf.
Qed.

Lemma reads_getattr name : reads (getattr name).
Proof. intros st. unfold getattr. by destruct (self st !! name). Qed.

Lemma reads_contents p : reads (contents p).
Proof. intros st. unfold contents. by destruct (memory st !! p). Qed.

(** The value of a method that only reads. *)
Lemma reads_value {A} (c : M A) st : reads c → c st = ((c st).1, st).
Proof. intros H. specialize (H st). by destruct (c st) as [r st']; subst. Qed.

Lemma reads_bind_value {A B} (c : M A) (f : A → M B) st x :
  reads c → (c st).1 = inr x → (c ≫= f) st = f x st.
Proof.
  intros Hc Hx. apply bind_eq. rewrite (reads_value c st Hc). by rewrite Hx.
Qed.

Lemma reads_bind_error {A B} (c : M A) (f : A → M B) st e :
  reads c → (c st).1 = inl e → (c ≫= f) st = (inl e, st).
Proof.
  intros Hc He. unfold mbind, M_bind. rewrite (reads_value c st Hc).
  by rewrite He.
Qed.

End ReadsTheory.

Create HintDb reads.
#[global] Hint Resolve reads_ret reads_raise reads_result reads_getattr
  reads_contents : reads.

Ltac reads_step :=
  first
    [ solve [auto with reads]
    | apply reads_bind; [|intros]
    | match goal with
      | |- reads (match ?x with _ => _ end) => destruct x
      end ].

Section QueryTheory.
Context (K : xkb_h) (srv : XServer) (U : UnicodeDB) (T : text_env).

Lemma reads_names_contents : reads names_contents.
Proof. unfold names_contents. repeat reads_step. Qed.

Lemma reads_groups_source : reads _groups_source.
Proof.
  unfold _groups_source. apply reads_bind; [apply reads_names_contents|].
  intros; apply reads_ret.
Qed.

Lemma reads_groups_count : reads (groups_count K).
Proof.
  unfold groups_count. apply reads_bind; [apply reads_getattr|]. intros kd.
  apply reads_bind; [apply reads_contents|]. intros desc.
  unfold is_not_None.
  apply reads_bind; [apply reads_getattr|]. intros kd'.
  apply reads_bind; [apply reads_contents|]. intros desc'.
  apply reads_bind; [|intros; apply reads_ret].
  unfold pointer_contents.
  destruct (ctrls desc'); [apply reads_ret | apply reads_raise].
Qed.

Lemma reads_symboldata_list : reads (_symboldata_list K U T).
Proof.
  unfold _symboldata_list, _symbols_source, X_XGetAtomName.
  apply reads_bind.
  { apply reads_bind; [apply reads_names_contents | intros; apply reads_ret]. }
  intros a. repeat reads_step.
Qed.

Lemma reads_get_group_name_by_num g : reads (_get_group_name_by_num K T g).
Proof.
  unfold _get_group_name_by_num, X_XGetAtomName.
  apply reads_bind; [apply reads_groups_source|]. intros gs.
  repeat reads_step.
Qed.

Lemma reads_mapM {A B} (f : A → M B) l : (∀ x, reads (f x)) → reads (mapM f l).
Proof.
  intros Hf. induction l as [|x l IH]; simpl; [apply reads_ret|].
  apply reads_bind; [apply Hf|]. intros y.
  apply reads_bind; [apply IH|]. intros; apply reads_ret.
Qed.

Lemma reads_groups_names : reads (groups_names K T).
Proof.
  unfold groups_names. apply reads_bind; [apply reads_groups_count|].
  intros n. apply reads_mapM. apply reads_get_group_name_by_num.
Qed.

(** *** Dict comprehensions *)

Lemma fold_insert_other `{Countable Key} {V} (items : list (Key * V))
    (m : gmap Key V) k :
  k ∉ items.*1 →
  fold_left (fun m kv => <[kv.1 := kv.2]> m) items m !! k = m !! k.
Proof.
  revert m. induction items as [|[k' v'] items IH]; intros m Hk; [done|].
  simpl in *. apply not_elem_of_cons in Hk as [Hne Hk].
  rewrite IH by done. by rewrite lookup_insert_ne.
Qed.

Lemma dict_of_None `{Countable Key} {V} (items : list (Key * V)) k :
  k ∉ items.*1 → dict_of items !! k = None.
Proof. intros Hk. unfold dict_of. by rewrite fold_insert_other. Qed.

(** The last item of a key is the one the dict keeps. *)
Lemma dict_of_last `{Countable Key} {V} (front back : list (Key * V)) k v :
  k ∉ back.*1 → dict_of (front ++ (k, v) :: back) !! k = Some v.
Proof.
  intros Hk. unfold dict_of. rewrite fold_left_app. simpl.
  rewrite fold_insert_other by done. by rewrite lookup_insert_eq.
Qed.

Lemma keys_of_records {Key V} (key : SymbolData → Key) (val : SymbolData → V)
    (l : list SymbolData) :
  (map (fun symdata => (key symdata, val symdata)) l).*1 = map key l.
Proof. induction l as [|r l IH]; [done|]. simpl. f_equal. exact IH. Qed.

(** *** The records of the session *)

(** [_symboldata_list] looks at the attributes and the memory only. *)
Lemma symboldata_list_log st lg :
  (_symboldata_list K U T (mkState (self st) lg (memory st))).1
  = (_symboldata_list K U T st).1.
Proof.
  unfold _symboldata_list, _symbols_source, names_contents, getattr,
    contents, X_XGetAtomName. run_M.
  destruct (self st !! "_keyboard_description") as [kd|]; [|done]. simpl.
  destruct (memory st !! kd) as [desc|]; [|done]. simpl.
  destruct (names desc) as [nm|]; [|done]. simpl.
  case_bool_decide; [|done]. simpl.
  destruct (self st !! "_display") as [dpy|]; [|done]. simpl.
  destruct (atom_name T (symbols nm)) as [b|]; [|done]. simpl.
  destruct (decode T b) as [e|str]; [done|]. simpl.
  by destruct (_parse_symbols U str _ 0).
Qed.

(** What it returns is a parse of some string, with the three tokens
    that name no layout ignored. *)
Lemma symboldata_list_parsed st l :
  (_symboldata_list K U T st).1 = inr l →
  ∃ symbols_str,
    _parse_symbols U symbols_str [u "pc"; u "inet"; u "group"] 0 = inr l.
Proof.
  unfold _symboldata_list, _symbols_source, names_contents, getattr,
    contents, X_XGetAtomName. run_M.
  destruct (self st !! "_keyboard_description") as [kd|]; [|done]. simpl.
  destruct (memory st !! kd) as [desc|]; [|done]. simpl.
  destruct (names desc) as [nm|]; [|done]. simpl.
  case_bool_decide; [|done]. simpl.
  destruct (self st !! "_display") as [dpy|]; [|done]. simpl.
  destruct (atom_name T (symbols nm)) as [b|]; [|done]. simpl.
  destruct (decode T b) as [e|str]; [done|]. simpl.
  destruct (_parse_symbols U str _ 0) as [e|l'] eqn:E; [done|].
  simpl. intros [= <-]. eauto.
Qed.

Lemma symboldata_list_distinct st l :
  (_symboldata_list K U T st).1 = inr l → NoDup (map index l).
Proof.
  intros [str H]%symboldata_list_parsed.
  by apply _parse_symbols_ok in H as (all & _ & _ & Hnd).
Qed.

(** *** The setter on a refusal or an acceptance, as states *)

Lemma group_num_setter_cases st g :
  self st !! "display" = None →
  (∃ name, group_num_setter K srv g st = (inl (AttributeError name), st))
  ∨ (∃ dpy,
       self st !! "_display" = Some dpy
       ∧ group_num_setter K srv g st
         = (inr (),
            mkState (self st)
              (log st ++ [C_XkbLockGroup dpy (XkbUseCoreKbd K) g; C_XFlush dpy])
              (memory st)))
  ∨ (∃ st', group_num_setter K srv g st
            = (inl (X11Error (u "Failed to set group number.")), st')).
Proof.
  intros H. unfold group_num_setter, getattr, X_XkbLockGroup, X_XFlush, emit.
  run_M. destruct (self st !! "_display") as [dpy|] eqn:Ed; simpl.
  - destruct (lock_group_reply srv _); simpl.
    + right. left. exists dpy. rewrite Ed. simpl.
      by rewrite <- app_assoc.
    + right. right. rewrite close_display_eq by done. simpl. eauto.
  - left. eauto.
Qed.

Lemma catch_KeyError_group_num_setter st g handler :
  self st !! "display" = None →
  catch_KeyError (group_num_setter K srv g) handler st
  = group_num_setter K srv g st.
Proof.
  intros H. unfold catch_KeyError.
  by destruct (group_num_setter_cases st g H)
    as [[name ->]|[(dpy & _ & ->)|[st' ->]]].
Qed.

(** *** [group_symbol] and [group_variant] *)

(** X10. Setting [group_symbol] to a string that is the symbol of no
    record raises [ValueError] and leaves the session as it was: no
    group is locked. *)
Theorem group_symbol_setter_unknown (st : state) (l : list SymbolData)
    (value : str) :
  (_symboldata_list K U T st).1 = inr l →
  value ∉ map symbol l →
  group_symbol_setter K srv U T value st
  = (inl (ValueError (u "Wrong group symbol.")), st).
Proof.
  intros Hl Hv. unfold group_symbol_setter.
  rewrite (reads_bind_value _ _ st l reads_symboldata_list Hl).
  rewrite dict_of_None; [done|]. by rewrite keys_of_records.
Qed.

Lemma group_symbol_setter_eq (st : state) (front back : list SymbolData)
    (r : SymbolData) :
  self st !! "display" = None →
  (_symboldata_list K U T st).1 = inr (front ++ r :: back) →
  symbol r ∉ map symbol back →
  group_symbol_setter K srv U T (symbol r) st
  = group_num_setter K srv (index r) st.
Proof.
  intros H Hl Hr. unfold group_symbol_setter.
  rewrite (reads_bind_value _ _ st _ reads_symboldata_list Hl).
  rewrite map_app. simpl. rewrite dict_of_last.
  - by apply catch_KeyError_group_num_setter.
  - by rewrite keys_of_records.
Qed.

(** X11. Setting [group_symbol] to a symbol that several records have
    selects the index of the last of them in the symbols string: the
    setter then is the setter of [group_num] at that index. *)
Theorem group_symbol_setter_last (st : state) (front back : list SymbolData)
    (r : SymbolData) :
  self st !! "display" = None →
  (_symboldata_list K U T st).1 = inr (front ++ r :: back) →
  symbol r ∉ map symbol back →
  group_symbol_setter K srv U T (symbol r) st
  = group_num_setter K srv (index r) st.
Proof. apply group_symbol_setter_eq. Qed.

Lemma group_symbol_at st l r dpy :
  (_symboldata_list K U T st).1 = inr l →
  self st !! "_display" = Some dpy →
  r ∈ l →
  get_state_reply srv (log st ++ [C_XkbGetState dpy (XkbUseCoreKbd K)])
    = index r →
  (group_symbol K srv U T st).1 = inr (symbol r)
  ∧ (group_variant K srv U T st).1 = inr (or_empty (variant r)).
Proof.
  intros Hl Hd Hr Hg.
  pose proof (symboldata_list_distinct st l Hl) as Hnd.
  apply list_elem_of_split in Hr as (front & back & ->).
  assert (index r ∉ map index back) as Hback.
  { rewrite map_app in Hnd. simpl in Hnd.
    apply NoDup_app in Hnd as (_ & _ & Hnd). by inversion Hnd. }
  split.
  - unfold group_symbol.
    rewrite (reads_bind_value _ _ st _ reads_symboldata_list Hl).
    unfold group_num, getattr, X_XkbGetState, emit. run_M.
    rewrite Hd. simpl. rewrite Hg, map_app. simpl.
    rewrite dict_of_last; [done|]. by rewrite keys_of_records.
  - unfold group_variant.
    rewrite (reads_bind_value _ _ st _ reads_symboldata_list Hl).
    unfold group_num, getattr, X_XkbGetState, emit. run_M.
    rewrite Hd. simpl. rewrite Hg, map_app. simpl.
    rewrite dict_of_last; [done|]. by rewrite keys_of_records.
Qed.

(** X12. With the records of the symbols string at hand and the server
    reporting group [index r] for a record [r], [group_symbol] is the
    symbol of [r] and [group_variant] its variant, the empty string when
    it has none. *)
Theorem group_symbol_variant_by_index (st : state) (l : list SymbolData)
    (r : SymbolData) (dpy : N) :
  (_symboldata_list K U T st).1 = inr l →
  self st !! "_display" = Some dpy →
  r ∈ l →
  get_state_reply srv (log st ++ [C_XkbGetState dpy (XkbUseCoreKbd K)])
    = index r →
  (group_symbol K srv U T st).1 = inr (symbol r)
  ∧ (group_variant K srv U T st).1 = inr (or_empty (variant r)).
Proof. apply group_symbol_at. Qed.

(** X13. When no record has the index of the group the server reports,
    [group_symbol] and [group_variant] raise [KeyError] with that
    group. *)
Theorem group_symbol_no_record (st : state) (l : list SymbolData)
    (dpy : N) (g : Z) :
  (_symboldata_list K U T st).1 = inr l →
  self st !! "_display" = Some dpy →
  get_state_reply srv (log st ++ [C_XkbGetState dpy (XkbUseCoreKbd K)]) = g →
  g ∉ map index l →
  (group_symbol K srv U T st).1 = inl (KeyError g)
  ∧ (group_variant K srv U T st).1 = inl (KeyError g).
Proof.
  intros Hl Hd Hg Hno. split.
  - unfold group_symbol.
    rewrite (reads_bind_value _ _ st _ reads_symboldata_list Hl).
    unfold group_num, getattr, X_XkbGetState, emit. run_M.
    rewrite Hd. simpl. rewrite Hg.
    rewrite dict_of_None; [done|]. by rewrite keys_of_records.
  - unfold group_variant.
    rewrite (reads_bind_value _ _ st _ reads_symboldata_list Hl).
    unfold group_num, getattr, X_XkbGetState, emit. run_M.
    rewrite Hd. simpl. rewrite Hg.
    rewrite dict_of_None; [done|]. by rewrite keys_of_records.
Qed.

(** X14. Round trip: when the setter of [group_symbol] returns and the
    server then reports the group it locked, [group_symbol] is the
    symbol that was set. *)
Theorem group_symbol_round_trip (st : state) (front back : list SymbolData)
    (r : SymbolData) (dpy : N) :
  self st !! "display" = None →
  self st !! "_display" = Some dpy →
  (_symboldata_list K U T st).1 = inr (front ++ r :: back) →
  symbol r ∉ map symbol back →
  (group_symbol_setter K srv U T (symbol r) st).1 = inr () →
  get_state_reply srv
    (log (group_symbol_setter K srv U T (symbol r) st).2
     ++ [C_XkbGetState dpy (XkbUseCoreKbd K)]) = index r →
  (group_symbol K srv U T
     (group_symbol_setter K srv U T (symbol r) st).2).1
  = inr (symbol r).
Proof.
  intros H Hd Hl Hr.
  rewrite (group_symbol_setter_eq st front back r) by done.
  destruct (group_num_setter_cases st (index r) H)
    as [[name ->]|[(dpy' & Hd' & ->)|[st' ->]]]; [done| |done].
  simpl. intros _ Hg.
  apply (group_symbol_at _ (front ++ r :: back) r dpy); simpl; try done.
  - by rewrite symboldata_list_log.
  - apply elem_of_app. right. apply elem_of_cons. by left.
Qed.

(** *** [group_name] *)

Lemma length_range n : length (range n) = Z.to_nat n.
Proof. unfold range. by rewrite length_map, length_seq. Qed.

Lemma lookup_range n k :
  (k < Z.to_nat n)%nat → range n !! k = Some (Z.of_nat k).
Proof.
  intros Hk. unfold range. change (map ?f ?l) with (f <$> l).
  rewrite list_lookup_fmap, lookup_seq_lt by done. done.
Qed.

(** X15. Setting [group_name] to a string that is the name of no group
    raises [ValueError] and leaves the session as it was: no group is
    locked. *)
Theorem group_name_setter_unknown (st : state) (names : list str)
    (value : str) :
  (groups_names K T st).1 = inr names →
  value ∉ names →
  group_name_setter K srv T value st
  = (inl (ValueError (u "Wrong group name.")), st).
Proof.
  intros Hn Hv. unfold group_name_setter.
  rewrite (reads_bind_value _ _ st names reads_groups_names Hn).
  rewrite dict_of_None; [done|].
  rewrite fst_zip; [done|]. rewrite length_range. lia.
Qed.

(** *** [groups_data] *)

Lemma mapM_length {A B} (f : A → M B) l st ys :
  (∀ x, reads (f x)) → (mapM f l st).1 = inr ys → length ys = length l.
Proof.
  intros Hf. revert ys. induction l as [|x l IH]; intros ys; simpl.
  - by intros [= <-].
  - unfold mbind, M_bind. rewrite (reads_value (f x) st (Hf x)).
    destruct (f x st).1 as [e|y]; [done|].
    rewrite (reads_value (mapM f l) st (reads_mapM f l Hf)).
    destruct (mapM f l st).1 as [e|ys'] eqn:E; [done|].
    simpl. intros [= <-]. simpl. f_equal. by apply IH.
Qed.

Lemma zip4_length {A B C D} (a : list A) (b : list B) (c : list C)
    (d : list D) :
  length (zip4 a b c d)
  = ((length a `min` length b) `min` (length c `min` length d))%nat.
Proof.
  revert b c d. induction a as [|x a IH]; intros [|y b] [|z c] [|w d];
    simpl; try lia.
  rewrite IH. lia.
Qed.

Lemma zip4_lookup {A B C D} (a : list A) (b : list B) (c : list C)
    (d : list D) k x y z w :
  a !! k = Some x → b !! k = Some y → c !! k = Some z → d !! k = Some w →
  zip4 a b c d !! k = Some (x, y, z, w).
Proof.
  revert b c d k. induction a as [|x' a IH]; intros [|y' b] [|z' c] [|w' d] k;
    try done.
  destruct k as [|k]; simpl.
  - by intros [= ->] [= ->] [= ->] [= ->].
  - apply IH.
Qed.

(** X16. With [n] groups counted, their names resolved and the records
    of the symbols string at hand, [groups_data] has as many entries as
    the smaller of [n] and the number of records, and entry [k] pairs
    the number [k] and the name of group [k] with the symbol and the
    variant of the [k]-th record of the string, whatever the index of
    that record. The session is left as it was. *)
Theorem groups_data_by_position (st : state) (n : Z) (names : list str)
    (l : list SymbolData) :
  (groups_count K st).1 = inr n →
  (groups_names K T st).1 = inr names →
  (_symboldata_list K U T st).1 = inr l →
  ∃ data,
    groups_data K U T st = (inr data, st)
    ∧ length data = (Z.to_nat n `min` length l)%nat
    ∧ ∀ k name r,
        names !! k = Some name →
        l !! k = Some r →
        data !! k
        = Some (mkGroupData (Z.of_nat k) name (symbol r)
                  (or_empty (variant r))).
Proof.
  intros Hc Hn Hl.
  assert (length names = Z.to_nat n) as Hlen.
  { unfold groups_names in Hn.
    rewrite (reads_bind_value _ _ st n reads_groups_count Hc) in Hn.
    apply mapM_length in Hn; [|apply reads_get_group_name_by_num].
    by rewrite length_range in Hn. }
  eexists. split; [|split].
  - unfold groups_data.
    rewrite (reads_bind_value _ _ st n reads_groups_count Hc).
    rewrite (reads_bind_value _ _ st names reads_groups_names Hn).
    unfold groups_symbols, groups_variants.
    rewrite (reads_bind_value (_ ≫= _) _ st (map symbol l)).
    2:{ apply reads_bind; [apply reads_symboldata_list|].
        intros; apply reads_ret. }
    2:{ by rewrite (reads_bind_value _ _ st l reads_symboldata_list Hl). }
    rewrite (reads_bind_value (_ ≫= _) _ st
               (map (fun symdata => or_empty (variant symdata)) l)).
    2:{ apply reads_bind; [apply reads_symboldata_list|].
        intros; apply reads_ret. }
    2:{ by rewrite (reads_bind_value _ _ st l reads_symboldata_list Hl). }
    reflexivity.
  - rewrite length_map, zip4_length, length_range, !length_map, Hlen. lia.
  - intros k name r Hname Hr.
    change (map ?f ?x !! k) with ((f <$> x) !! k).
    rewrite list_lookup_fmap.
    rewrite (zip4_lookup _ _ _ _ k (Z.of_nat k) name (symbol r)
               (or_empty (variant r))); try done.
    + apply lookup_range. apply lookup_lt_Some in Hname. lia.
    + change (map ?f ?x !! k) with ((f <$> x) !! k).
      by rewrite list_lookup_fmap, Hr.
    + change (map ?f ?x !! k) with ((f <$> x) !! k).
      by rewrite list_lookup_fmap, Hr.
Qed.

End QueryTheory.

(** ** More of the parser *)

Section ParserExtras.
Context (U : UnicodeDB).

(** X17. Every record [_parse_symbols] returns has a symbol of one or
    more word characters, and a variant that is [None] or one or more
    word characters. *)
Theorem parse_symbols_fields (symbols_str : str) (non_symbols : list str)
    (default_index : Z) (l : list SymbolData) :
  _parse_symbols U symbols_str non_symbols default_index = inr l →
  Forall (fun r => word_chars U (symbol r)
                   ∧ ∀ v, variant r = Some v → word_chars U v) l.
Proof.
  intros H. apply _parse_symbols_ok in H as (all & Hall & -> & _).
  apply Forall_forall. intros r [_ Hr]%list_elem_of_filter.
  apply list_elem_of_lookup in Hr as [i Hi].
  destruct (Forall2_lookup_r _ _ _ _ _ Hall Hi) as (tok & _ & Htok).
  apply get_symboldata_ok in Htok
    as (sym & ov & oi & (_ & Hsym & Hov & _) & ->).
  by split.
Qed.

Lemma parse_one_default (raw : str) (ignored : list str)
    (l : list SymbolData) (i j : nat) (tok1 tok2 sym1 sym2 : str)
    (ov1 ov2 : option str) :
  parse U raw ignored = inr l →
  retained U raw ignored !! i = Some tok1 →
  retained U raw ignored !! j = Some tok2 →
  token_shape U tok1 sym1 ov1 None →
  token_shape U tok2 sym2 ov2 None →
  i = j.
Proof.
  intros Hl Hi Hj H1 H2.
  pose proof (parse_retained U raw ignored l Hl) as Hret.
  unfold parse in Hl. apply _parse_symbols_ok in Hl as (_ & _ & _ & Hnd).
  destruct (Forall2_lookup_l _ _ _ _ _ Hret Hi) as (r1 & Hi' & Hr1).
  destruct (Forall2_lookup_l _ _ _ _ _ Hret Hj) as (r2 & Hj' & Hr2).
  apply get_symboldata_ok in Hr1 as (s1 & o1 & x1 & Hs1 & ->).
  apply get_symboldata_ok in Hr2 as (s2 & o2 & x2 & Hs2 & ->).
  destruct (token_shape_unique U _ _ _ _ _ _ _ H1 Hs1) as (_ & _ & <-).
  destruct (token_shape_unique U _ _ _ _ _ _ _ H2 Hs2) as (_ & _ & <-).
  change (map index l) with (index <$> l) in Hnd.
  apply (NoDup_lookup _ i j 0 Hnd).
  - by rewrite list_lookup_fmap, Hi'.
  - by rewrite list_lookup_fmap, Hj'.
Qed.

(** Whatever [parse] raises is the error of a malformed token or the
    failed [assert]. *)
Lemma parse_raises raw ignored e :
  parse U raw ignored = inl e → ParseError e.
Proof.
  unfold parse, _parse_symbols.
  destruct (parse_loop U ignored 0 (split 43 raw) []) as [e'|l] eqn:E.
  - intros [= <-].
    apply parse_loop_error in E as (good & bad & rest & _ & _ & _ & ->).
    constructor.
  - simpl. case_bool_decide; [done|]. intros [= <-]. constructor.
Qed.

(** X18. A symbols string with two retained tokens that both lack the
    index suffix does not parse: both would get the default index. *)
Theorem parse_two_defaults_fail (raw : str) (ignored : list str)
    (i j : nat) (tok1 tok2 sym1 sym2 : str) (ov1 ov2 : option str) :
  i ≠ j →
  retained U raw ignored !! i = Some tok1 →
  retained U raw ignored !! j = Some tok2 →
  token_shape U tok1 sym1 ov1 None →
  token_shape U tok2 sym2 ov2 None →
  ∃ e, parse U raw ignored = inl e ∧ ParseError e.
Proof.
  intros Hij Hi Hj H1 H2.
  destruct (parse U raw ignored) as [e|l] eqn:E.
  - exists e. split; [done | by eapply parse_raises].
  - destruct Hij. by eapply parse_one_default.
Qed.

End ParserExtras.

(** ** The properties above, at inputs *)

Ltac not_in_list :=
  let H := fresh in
  intros H; vm_compute in H;
  repeat (apply elem_of_cons in H as [H|H]; [discriminate H|]);
  by apply elem_of_nil in H.

(** X6, on a refused connection. *)
Lemma open_display_connect_rejected_witness :
  open_display X11_headers srv_refused fresh
  = (inl (X11Error (u "Display could not be opened" ++ u ".")),
     connected X11_headers srv_refused fresh).
Proof.
  apply (open_display_connect_rejected X11_headers srv_refused fresh
           (u "Display could not be opened")); reflexivity.
Defined.

(** X7, on the server that accepts everything. *)
Lemma open_display_succeeds_witness :
  open_display X11_headers srv_ok fresh
  = (inr (),
     described X11_headers srv_ok fresh (names_log X11_headers srv_ok fresh)
       {| ctrls := Some {| num_groups := 2 |};
          names := Some {| symbols := 300%N;
                           groups := [301; 302; 0; 0]%N |} |})
  ∧ groups_count X11_headers
      (described X11_headers srv_ok fresh
         (names_log X11_headers srv_ok fresh)
         {| ctrls := Some {| num_groups := 2 |};
            names := Some {| symbols := 300%N;
                             groups := [301; 302; 0; 0]%N |} |})
    = (inr (num_groups {| num_groups := 2 |}),
       described X11_headers srv_ok fresh
         (names_log X11_headers srv_ok fresh)
         {| ctrls := Some {| num_groups := 2 |};
            names := Some {| symbols := 300%N;
                             groups := [301; 302; 0; 0]%N |} |}).
Proof.
  apply (open_display_succeeds X11_headers srv_ok fresh);
    [reflexivity | reflexivity | discriminate | reflexivity | reflexivity].
Defined.

(** X8, on a status the table does not list. *)
Lemma open_display_controls_failure_witness :
  open_display X11_headers srv_odd_controls fresh
  = (inl (fetch_error (GET_CONTROLS_ERRORS X11_headers) 16),
     rolled_back X11_headers srv_odd_controls fresh
       (controls_log X11_headers srv_odd_controls fresh)
       {| ctrls := None; names := None |}).
Proof.
  apply (open_display_controls_failure X11_headers srv_odd_controls fresh 16
           {| num_groups := 0 |});
    [reflexivity | reflexivity | discriminate | reflexivity | discriminate].
Defined.

(** X9, on BadLength. *)
Lemma open_display_names_failure_witness :
  open_display X11_headers srv_no_names fresh
  = (inl (fetch_error (GET_NAMES_ERRORS X11_headers) 16),
     rolled_back X11_headers srv_no_names fresh
       (names_log X11_headers srv_no_names fresh)
       {| ctrls := Some {| num_groups := 2 |}; names := None |}).
Proof.
  apply (open_display_names_failure X11_headers srv_no_names fresh 16
           {| num_groups := 2 |} {| symbols := 0%N; groups := [] |});
    [reflexivity | reflexivity | discriminate | reflexivity | reflexivity
    | discriminate].
Defined.

(** X10, on the open session. *)
Lemma group_symbol_setter_unknown_witness :
  group_symbol_setter X11_headers srv_ok ascii_db texts_ok (u "fr") opened
  = (inl (ValueError (u "Wrong group symbol.")), opened).
Proof.
  apply (group_symbol_setter_unknown X11_headers srv_ok ascii_db texts_ok
           opened records_ok (u "fr")); [reflexivity | not_in_list].
Defined.

(** X11, on two layouts of the symbol "us". *)
Lemma group_symbol_setter_last_witness :
  group_symbol_setter X11_headers srv_ok ascii_db texts_dvorak (u "us") opened
  = group_num_setter X11_headers srv_ok 1 opened.
Proof.
  apply (group_symbol_setter_last X11_headers srv_ok ascii_db texts_dvorak
           opened [mkSymbolData (u "us") None 0] []
           (mkSymbolData (u "us") (Some (u "dvorak")) 1));
    [reflexivity | reflexivity | not_in_list].
Defined.

(** X12, on the open session, in group 0. *)
Lemma group_symbol_variant_by_index_witness :
  (group_symbol X11_headers srv_ok ascii_db texts_ok opened).1
  = inr (u "us")
  ∧ (group_variant X11_headers srv_ok ascii_db texts_ok opened).1
    = inr [].
Proof.
  apply (group_symbol_variant_by_index X11_headers srv_ok ascii_db texts_ok
           opened records_ok (mkSymbolData (u "us") None 0) 7%N);
    [reflexivity | reflexivity | | reflexivity].
  apply elem_of_cons. by left.
Defined.

(** X13, on a server in group 3. *)
Lemma group_symbol_no_record_witness :
  (group_symbol X11_headers srv_group3 ascii_db texts_ok opened_group3).1
  = inl (KeyError 3)
  ∧ (group_variant X11_headers srv_group3 ascii_db texts_ok opened_group3).1
    = inl (KeyError 3).
Proof.
  apply (group_symbol_no_record X11_headers srv_group3 ascii_db texts_ok
           opened_group3 records_ok 7%N 3);
    [reflexivity | reflexivity | reflexivity | not_in_list].
Defined.

(** X14, on the server that reports the locked group. *)
Lemma group_symbol_round_trip_witness :
  (group_symbol X11_headers srv_groups ascii_db texts_ok
     (group_symbol_setter X11_headers srv_groups ascii_db texts_ok (u "ru")
        opened_groups).2).1
  = inr (u "ru").
Proof.
  apply (group_symbol_round_trip X11_headers srv_groups ascii_db texts_ok
           opened_groups [mkSymbolData (u "us") None 0] []
           (mkSymbolData (u "ru") (Some (u "phonetic")) 1) 7%N);
    [reflexivity | reflexivity | reflexivity | not_in_list | reflexivity
    | reflexivity].
Defined.

(** X15, on the open session. *)
Lemma group_name_setter_unknown_witness :
  group_name_setter X11_headers srv_ok texts_ok (u "French") opened
  = (inl (ValueError (u "Wrong group name.")), opened).
Proof.
  apply (group_name_setter_unknown X11_headers srv_ok texts_ok opened
           [u "English (US)"; u "Russian"] (u "French"));
    [reflexivity | not_in_list].
Defined.

(** X16, on the open session. *)
Lemma groups_data_by_position_witness :
  ∃ data,
    groups_data X11_headers ascii_db texts_ok opened = (inr data, opened)
    ∧ length data = (Z.to_nat 2 `min` length records_ok)%nat
    ∧ ∀ k name r,
        [u "English (US)"; u "Russian"] !! k = Some name →
        records_ok !! k = Some r →
        data !! k
        = Some (mkGroupData (Z.of_nat k) name (symbol r)
                  (or_empty (variant r))).
Proof.
  apply (groups_data_by_position X11_headers ascii_db texts_ok opened 2
           [u "English (US)"; u "Russian"] records_ok); reflexivity.
Defined.

(** X17, at an input. *)
Lemma parse_symbols_fields_witness :
  Forall (fun r => word_chars ascii_db (symbol r)
                   ∧ ∀ v, variant r = Some v → word_chars ascii_db v)
    records_ok.
Proof.
  apply (parse_symbols_fields ascii_db (u "pc+us+ru(phonetic):2+inet(evdev)")
           [u "pc"; u "inet"; u "group"] 0 records_ok).
  reflexivity.
Defined.

(** X18, on two layouts without suffix. *)
Lemma parse_two_defaults_fail_witness :
  ∃ e, parse ascii_db (u "pc+us+ru") [u "pc"] = inl e ∧ ParseError e.
Proof.
  apply (parse_two_defaults_fail ascii_db (u "pc+us+ru") [u "pc"]
           0%nat 1%nat (u "us") (u "ru") (u "us") (u "ru") None None);
    try reflexivity; try lia.
  - split; [reflexivity|]. split; [|by split].
    split; [done|]. by repeat constructor.
  - split; [reflexivity|]. split; [|by split].
    split; [done|]. by repeat constructor.
Defined.

(** X19, on the server without a keyboard description. *)
Lemma open_display_map_failure_witness :
  open_display X11_headers srv_no_keyboard fresh
  = (inl (X11Error (u "Failed to get keyboard description.")),
     mkState
       (<["_keyboard_description" := NULL]>
          (self (connected X11_headers srv_no_keyboard fresh)))
       (map_log X11_headers srv_no_keyboard fresh)
       (memory (connected X11_headers srv_no_keyboard fresh))).
Proof.
  apply (open_display_map_failure X11_headers srv_no_keyboard fresh);
    reflexivity.
Defined.
